(** * M1M3 hardpoint tests: window chunking and feature extraction

    A shallow embedding of the pure parts of
    [python/lsst/sitcom/tn082/utils.py],
    [python/lsst/sitcom/tn082/features.py] and
    [python/lsst/sitcom/tn082/scan_status.py], and the properties of the
    design document that concern them.

    Conventions of the embedding:
    - a [pd.Timestamp] is its number of nanoseconds since the epoch, a
      [pd.Timedelta] a number of nanoseconds, both in [Z];
    - a [float] is an exact rational, or one of NaN, +inf, -inf: the
      comparisons, the tests [np.isfinite] and [isna] and the propagation of
      NaN and of infinities are those of the source; rounding, overflow and
      the sign of zero are not part of this model, which serves where the
      code compares, selects and copies numbers;
    - where the value of a result depends on rounding, as for the slope of
      the fit, the numbers are those of binary64 ([Binary64]);
    - a [pd.Series] is the list of its (label, value) pairs in row order, a
      two-column [pd.DataFrame] the list of its rows;
    - a Python function that can raise returns an [option], [None] being
      the raised exception; a loop that may not terminate takes fuel. *)

From Stdlib Require Import ZArith QArith Qcanon Qcabs List Bool Lia Arith.
From Stdlib Require Import Sorted Permutation Lqa.
From Stdlib Require String SpecFloat.
Import ListNotations.

(** ** Numbers *)

Module Float.

Local Open Scope Qc_scope.

Inductive float : Type :=
| NaN : float
| PInf : float
| NInf : float
| Fin (q : Qc) : float.

Definition zero : float := Fin 0.

Definition isnan (x : float) : bool :=
  match x with NaN => true | _ => false end.

Definition isfinite (x : float) : bool :=
  match x with Fin _ => true | _ => false end.

(** The sign of a rational, as a comparison with zero. *)
Definition sgn (q : Qc) : comparison := Qccompare q 0.

Definition fopp (x : float) : float :=
  match x with
  | NaN => NaN
  | PInf => NInf
  | NInf => PInf
  | Fin q => Fin (- q)
  end.

Definition fabs (x : float) : float :=
  match x with
  | NaN => NaN
  | PInf | NInf => PInf
  | Fin q => Fin (Qcabs q)
  end.

Definition fadd (x y : float) : float :=
  match x, y with
  | NaN, _ | _, NaN => NaN
  | PInf, NInf | NInf, PInf => NaN
  | PInf, _ | _, PInf => PInf
  | NInf, _ | _, NInf => NInf
  | Fin a, Fin b => Fin (a + b)
  end.

Definition fsub (x y : float) : float := fadd x (fopp y).

(** An infinity of the given sign times a finite factor [q]. *)
Definition inf_times (positive : bool) (q : Qc) : float :=
  match sgn q with
  | Eq => NaN
  | Gt => if positive then PInf else NInf
  | Lt => if positive then NInf else PInf
  end.

Definition fmul (x y : float) : float :=
  match x, y with
  | NaN, _ | _, NaN => NaN
  | PInf, PInf | NInf, NInf => PInf
  | PInf, NInf | NInf, PInf => NInf
  | PInf, Fin q | Fin q, PInf => inf_times true q
  | NInf, Fin q | Fin q, NInf => inf_times false q
  | Fin a, Fin b => Fin (a * b)
  end.

(** Division; a zero divisor counts as +0. *)
Definition fdiv (x y : float) : float :=
  match x, y with
  | NaN, _ | _, NaN => NaN
  | (PInf | NInf), (PInf | NInf) => NaN
  | Fin _, (PInf | NInf) => Fin 0
  | PInf, Fin d => match sgn d with Lt => NInf | _ => PInf end
  | NInf, Fin d => match sgn d with Lt => PInf | _ => NInf end
  | Fin a, Fin d =>
      match sgn d with
      | Eq => match sgn a with Eq => NaN | Gt => PInf | Lt => NInf end
      | _ => Fin (a / d)
      end
  end.

(** Comparison; [None] when one side is NaN. *)
Definition fcompare (x y : float) : option comparison :=
  match x, y with
  | NaN, _ | _, NaN => None
  | PInf, PInf | NInf, NInf => Some Eq
  | PInf, _ | _, NInf => Some Gt
  | NInf, _ | _, PInf => Some Lt
  | Fin a, Fin b => Some (Qccompare a b)
  end.

Definition flt (x y : float) : bool :=
  match fcompare x y with Some Lt => true | _ => false end.

Definition fle (x y : float) : bool :=
  match fcompare x y with Some Lt | Some Eq => true | _ => false end.

Definition fgt (x y : float) : bool := flt y x.
Definition fge (x y : float) : bool := fle y x.

Definition feq (x y : float) : bool :=
  match fcompare x y with Some Eq => true | _ => false end.

(** A decimal constant of the source. *)
Definition of_Q (q : Q) : float := Fin (Q2Qc q).
Definition of_Z (z : Z) : float := Fin (Q2Qc (inject_Z z)).

End Float.

Import Float.

(** ** utils.py *)

Module utils.

Local Open Scope Z_scope.

(** [DataFrame.sort_index]: rows in increasing order of their label. Rows
    of equal label keep their relative order, as they do in pandas when the
    index is already in order; the properties proved of the callers rest
    only on the result being an ordered permutation of the rows. *)
Section SortIndex.

Context {A : Type} (key : A -> Z).

Fixpoint insert_row (r : A) (l : list A) : list A :=
  match l with
  | [] => [r]
  | h :: t => if key r <=? key h then r :: l else h :: insert_row r t
  end.

Definition sort_index (l : list A) : list A := fold_right insert_row [] l.

(** The order of the labels, on rows. *)
Definition key_le (a b : A) : Prop := key a <= key b.

(** [ensure_utc_index]: the change of time zone leaves the instants as
    they are; what remains is the sort. *)
Definition ensure_utc_index (df : list A) : list A :=
  match df with
  | [] => df
  | _ => sort_index df
  end.

End SortIndex.

Definition NS_PER_HOUR : Z := 3600 * 1000000000.
Definition NS_PER_DAY : Z := 24 * NS_PER_HOUR.

(** The [while chunk_start < end] loop of [chunk_ranges_utc]: the chunks
    it yields, in order; [None] when the fuel runs out first. *)
Fixpoint chunk_loop (fuel : nat) (chunk_start end_ delta overlap : Z)
  : option (list (Z * Z)) :=
  match fuel with
  | O => None
  | S fuel' =>
      if chunk_start <? end_ then
        let chunk_end := Z.min (chunk_start + delta) end_ in
        if chunk_end >=? end_ then Some [(chunk_start, chunk_end)]
        else
          option_map (cons (chunk_start, chunk_end))
            (chunk_loop fuel' (chunk_end - overlap) end_ delta overlap)
      else Some []
  end.

(** [if overlap >= delta: overlap = pd.Timedelta(0)]. *)
Definition forced_overlap (delta overlap : Z) : Z :=
  if overlap >=? delta then 0 else overlap.

Definition chunk_ranges_utc (fuel : nat) (start end_ days overlap_hours : Z)
  : option (list (Z * Z)) :=
  let delta := days * NS_PER_DAY in
  let overlap := overlap_hours * NS_PER_HOUR in
  let overlap := forced_overlap delta overlap in
  chunk_loop fuel start end_ delta overlap.

(** The chunks go from [start] to [end_]: the first begins at [start], the
    last ends at [end_], each is a non-empty interval, and each chunk after
    the first begins [overlap] before the end of the previous one, hence no
    later than that end. *)
Definition covers (start end_ overlap : Z) (chunks : list (Z * Z)) : Prop :=
  chunks <> [] /\
  fst (hd (0, 0) chunks) = start /\
  snd (last chunks (0, 0)) = end_ /\
  Forall (fun c => fst c < snd c) chunks /\
  LocallySorted
    (fun c1 c2 => fst c2 = snd c1 - overlap /\ fst c2 <= snd c1) chunks.

(** [index.to_series().diff().gt(gap)]: false at the first row, whose
    difference is NaT, then whether the step from the previous label exceeds
    [gap]. *)
Fixpoint gap_flags_from (prev : Z) (index : list Z) (gap : Z) : list bool :=
  match index with
  | [] => []
  | x :: t => (gap <? x - prev) :: gap_flags_from x t gap
  end.

Definition gap_flags (index : list Z) (gap : Z) : list bool :=
  match index with
  | [] => []
  | x :: t => false :: gap_flags_from x t gap
  end.

(** What a boolean counts for in a sum. *)
Definition bump (b : bool) : Z := if b then 1 else 0.

(** [cumsum] of a column of booleans, on top of [acc]. *)
Fixpoint cumsum_from (acc : Z) (flags : list bool) : list Z :=
  match flags with
  | [] => []
  | b :: t =>
      let acc := acc + (if b then 1 else 0) in
      acc :: cumsum_from acc t
  end.

(** [group_by_gaps]: the column [group_id] it adds to a frame whose index
    is [index]; an empty frame is returned as it is. *)
Definition group_by_gaps (index : list Z) (gap : Z) : list Z :=
  match index with
  | [] => []
  | _ => cumsum_from 0 (gap_flags index gap)
  end.

End utils.

Import utils.

(** ** features.py *)

Module features.

Local Open Scope Z_scope.

(** *** Constants *)

Definition BREAKAWAY_DISP_UM : float := of_Z 1.
Definition BREAKAWAY_MIN_CONSEC : nat := 3.
Definition STIFFNESS_NEG_CLAMP_EPS : float := of_Q (-0.5).
Definition STIFFNESS_MAX_ABS : float := of_Z 100.
Definition COMP_BAND_N : float * float := (of_Z 2981, of_Z 3959).
Definition TENS_BAND_N : float * float := (of_Z (-4420), of_Z (-3456)).

(** *** State segmentation *)

(** A series: the (label, value) pairs of its rows, in row order. *)
Definition series (A : Type) : Type := list (Z * A).

(** A segment [(t_start, t_end, state)]. *)
Definition segment : Type := Z * Z * Z.

Definition seg_start (g : segment) : Z := fst (fst g).
Definition seg_end (g : segment) : Z := snd (fst g).
Definition seg_state (g : segment) : Z := snd g.
Definition duration (g : segment) : Z := seg_end g - seg_start g.

(** [Series.dropna]; a missing value is [None]. *)
Definition dropna {A : Type} (s : series (option A)) : series A :=
  flat_map (fun r => match snd r with Some v => [(fst r, v)] | None => [] end) s.

(** [s[(s.index >= t0) & (s.index <= t1)]]. *)
Definition between {A : Type} (t0 t1 : Z) (s : series A) : series A :=
  filter (fun r => (t0 <=? fst r) && (fst r <=? t1)) s.

(** [s.loc[t] = v]: every row labelled [t] takes the value [v]; when there
    is none, a row is appended. *)
Definition loc_set {A : Type} (s : series A) (t : Z) (v : A) : series A :=
  if existsb (fun r => fst r =? t) s
  then map (fun r => if fst r =? t then (fst r, v) else r) s
  else s ++ [(t, v)].

(** [s.ne(s.shift())]: true at the first row, then where a value differs
    from its predecessor. *)
Fixpoint ne_shift_from (prev : Z) (l : list Z) : list bool :=
  match l with
  | [] => []
  | x :: t => negb (x =? prev) :: ne_shift_from x t
  end.

Definition ne_shift (l : list Z) : list bool :=
  match l with
  | [] => []
  | x :: t => true :: ne_shift_from x t
  end.

(** [[i for i, c in enumerate(change) if c]], counting from [i]. *)
Fixpoint positions_from (i : nat) (change : list bool) : list nat :=
  match change with
  | [] => []
  | c :: t =>
      if c then i :: positions_from (S i) t else positions_from (S i) t
  end.

(** [s.index[i]] and [s.iloc[i]]; the positions read are those of [idx],
    which are rows of [s]. *)
Definition index_at (s : series Z) (i : nat) : Z := fst (nth i s (0, 0)).
Definition iloc (s : series Z) (i : nat) : Z := snd (nth i s (0, 0)).

(** The two [if] that extend the series to the edges of the window, and
    the sort that follows. The second test reads the last row of the series
    as the first [if] left it. *)
Definition extend_to_edges (s : series Z) (t0 t1 : Z) : series Z :=
  match s with
  | [] => s
  | first :: _ =>
      let s := if t0 <? fst first then loc_set s t0 (snd first) else s in
      let last_row := last s first in
      let s := if fst last_row <? t1 then loc_set s t1 (snd last_row) else s in
      sort_index fst s
  end.

(** The change points of the series and the segments between them, the
    last one ending at [t1]. *)
Definition segments_of (s : series Z) (t1 : Z) : list segment :=
  let change := ne_shift (map snd s) in
  let idx := positions_from 0 change in
  map (fun k =>
         let a := index_at s (nth k idx 0%nat) in
         let b := if (S k <? length idx)%nat
                  then index_at s (nth (S k) idx 0%nat) else t1 in
         (a, b, iloc s (nth k idx 0%nat)))
      (seq 0 (length idx)).

Definition build_state_segments (status_series : series (option Z)) (t0 t1 : Z)
  : list segment :=
  match status_series with
  | [] => []
  | _ =>
      let s := dropna status_series in
      match s with
      | [] => []
      | _ =>
          let s := ensure_utc_index fst s in
          let s := between t0 t1 s in
          match s with
          | [] => []
          | _ => segments_of (extend_to_edges s t0 t1) t1
          end
      end
  end.

(** A sample of the series that is not missing and lies in the window. *)
Definition in_window (status_series : series (option Z)) (t0 t1 : Z)
  (t v : Z) : Prop :=
  In (t, Some v) status_series /\ t0 <= t <= t1.

(** The segments go from [t0] to [t1]: the first starts at [t0], the last
    ends at [t1], none ends before it starts, and each ends where the next
    starts. *)
Definition contiguous (t0 t1 : Z) (segs : list segment) : Prop :=
  segs <> [] /\
  seg_start (hd (0, 0, 0) segs) = t0 /\
  seg_end (last segs (0, 0, 0)) = t1 /\
  Forall (fun g => seg_start g <= seg_end g) segs /\
  LocallySorted (fun g1 g2 => seg_end g1 = seg_start g2) segs.

(** Python's [max(iterable, key=...)] on a non-empty iterable [x :: l]: the
    first of the items of greatest key. *)
Definition py_max {A : Type} (key : A -> Z) (x : A) (l : list A) : A :=
  fold_left (fun best y => if key best <? key y then y else best) l x.

(** The test [st == target_state and b > a] of the comprehension. *)
Definition is_candidate (target_state : Z) (g : segment) : bool :=
  (seg_state g =? target_state) && (seg_start g <? seg_end g).

Definition candidates (segs : list segment) (target_state : Z) : list (Z * Z) :=
  flat_map (fun g =>
              if is_candidate target_state g
              then [(seg_start g, seg_end g)] else [])
           segs.

Definition pick_longest_segment (segs : list segment) (target_state : Z)
  : option (Z * Z) :=
  match candidates segs target_state with
  | [] => None
  | c :: cands => Some (py_max (fun ab => snd ab - fst ab) c cands)
  end.

(** *** Stiffness fit *)

(** [np.dot] of two one-dimensional arrays; [None] is the [ValueError] for
    arrays of different lengths. The sums and products are exact here:
    this [dot] and the slope below serve for what [stiffness_from_df]
    selects and for when the slope raises; the value that the code
    computes is that of [Binary64.slope_through_origin]. *)
Fixpoint dot (x y : list float) : option float :=
  match x, y with
  | [], [] => Some zero
  | a :: x', b :: y' => option_map (fadd (fmul a b)) (dot x' y')
  | _, _ => None
  end.

Definition slope_through_origin (x y : list float) : option float :=
  match dot x x with
  | None => None
  | Some denom =>
      if feq denom zero || negb (isfinite denom) then Some NaN
      else option_map (fun num => fdiv num denom) (dot x y)
  end.

(** An array of finite numbers. *)
Definition fins (l : list Qc) : list float := map Fin l.

(** A row of a force/displacement curve, with its label in the index. *)
Record sample : Type := mk_sample {
  label : Z;
  force : float;
  displacement : float
}.

Definition curve : Type := list sample.

(** A sample of finite force and displacement. *)
Definition finite_sample (r : sample) : Prop :=
  isfinite (force r) = true /\ isfinite (displacement r) = true.

(** The rational behind a finite number, and the absolute force of a
    sample. *)
Definition val (x : float) : Qc :=
  match x with Fin q => q | _ => Q2Qc 0 end.

Definition abs_force (r : sample) : Qc := Qcabs (val (force r)).

(** One round of [Series.idxmin]: a NaN is skipped, and a row replaces the
    best one so far only when its value is strictly less. *)
Definition keep_least (best : option (Z * float)) (r : Z * float)
  : option (Z * float) :=
  if isnan (snd r) then best
  else match best with
       | None => Some r
       | Some b => if flt (snd r) (snd b) then Some r else best
       end.

(** [Series.idxmin]: the label of the first row holding the least value,
    NaN skipped; [None] when every value is NaN (no label to return). *)
Definition idxmin (s : series float) : option Z :=
  option_map fst (fold_left keep_least s None).

(** [df.loc[i0]]: the rows labelled [i0]. *)
Definition loc (df : curve) (i0 : Z) : list sample :=
  filter (fun r => label r =? i0) df.

(** [float(df.loc[i0, col])]: the value of the single row labelled [i0];
    with several such rows [loc] is a Series and [float] raises. *)
Definition loc_scalar (df : curve) (i0 : Z) (col : sample -> float)
  : option float :=
  match loc df i0 with
  | [r] => Some (col r)
  | _ => None
  end.

(** The offsets [(x0, y0)] that [center_to_origin] subtracts from a
    non-empty sorted curve. *)
Definition origin_of (df : curve) : option (float * float) :=
  match idxmin (map (fun r => (label r, fabs (force r))) df) with
  | None => None
  | Some i0 =>
      match loc_scalar df i0 displacement, loc_scalar df i0 force with
      | Some x0, Some y0 => Some (x0, y0)
      | _, _ => None
      end
  end.

Definition shift_by (x0 y0 : float) (r : sample) : sample :=
  mk_sample (label r) (fsub (force r) y0) (fsub (displacement r) x0).

Definition center_to_origin (df : curve) : option curve :=
  let df := sort_index label df in
  match df with
  | [] => Some df
  | _ =>
      match origin_of df with
      | None => None
      | Some (x0, y0) => Some (map (shift_by x0 y0) df)
      end
  end.

(** *** Stiffness of a curve *)






(** *** Slices, and what the properties of the segments are stated with *)

(** [slice_by_segment]; [pad] is [pad_s] seconds in nanoseconds. *)
Definition slice_by_segment (df : curve) (seg : option (Z * Z)) (pad : Z)
  : curve :=
  match seg, df with
  | None, _ => []
  | _, [] => []
  | Some (a, b), _ =>
      let a := a - pad in
      let b := b + pad in
      filter (fun r => (a <=? label r) && (label r <=? b)) df
  end.

(** The non-missing samples of the series that lie in the window, in the
    order of the index: the series [s] that [build_state_segments] extends
    to the edges. *)
Definition window_samples (status_series : series (option Z)) (t0 t1 : Z)
  : series Z :=
  between t0 t1 (ensure_utc_index fst (dropna status_series)).

(** A list of states without its consecutive repetitions. *)
Fixpoint compress_from (prev : Z) (l : list Z) : list Z :=
  match l with
  | [] => []
  | x :: t => if x =? prev then compress_from x t else x :: compress_from x t
  end.

Definition compress (l : list Z) : list Z :=
  match l with
  | [] => []
  | x :: t => x :: compress_from x t
  end.

(** The sum of the durations of the segments. *)
Definition total_duration (segs : list segment) : Z :=
  fold_right (fun g acc => duration g + acc) 0 segs.

(** *** Breakaway detection *)

(** [Series.diff]: NaN at the first position, then each value minus its
    predecessor. *)
Fixpoint diff_from (prev : float) (l : list float) : list float :=
  match l with
  | [] => []
  | x :: t => fsub x prev :: diff_from x t
  end.

Definition diff (l : list float) : list float :=
  match l with
  | [] => []
  | x :: t => NaN :: diff_from x t
  end.

(** [above = displacement_um.diff().abs() > BREAKAWAY_DISP_UM]. *)
Definition above (displacement_um : list float) : list bool :=
  map (fun v => fgt (fabs v) BREAKAWAY_DISP_UM) (diff displacement_um).

(** The test behind one flag: the step from [a] to [b] exceeds the
    threshold in absolute value. *)
Definition jump (a b : float) : bool :=
  fgt (fabs (fsub b a)) BREAKAWAY_DISP_UM.

(** The [for i, ok in enumerate(above)] loop, with its two local variables
    [count] and [first]. *)
Fixpoint scan (flags : list bool) (i count : nat) (first : option nat)
  : option nat :=
  match flags with
  | [] => None
  | ok :: rest =>
      if ok then
        let count := S count in
        let first := match first with None => Some i | Some _ => first end in
        if (BREAKAWAY_MIN_CONSEC <=? count)%nat then first
        else scan rest (S i) count first
      else scan rest (S i) 0%nat None
  end.

Definition find_breakaway_index (displacement_um : list float) : option nat :=
  match displacement_um with
  | [] => None
  | _ =>
      let flags := above displacement_um in
      if negb (existsb (fun b => b) flags) then None
      else scan flags 0%nat 0%nat None
  end.

(** A run of [BREAKAWAY_MIN_CONSEC] flagged positions starts at [i]. *)
Definition run_at (flags : list bool) (i : nat) : Prop :=
  forall k, (k < BREAKAWAY_MIN_CONSEC)%nat -> nth (i + k) flags false = true.

(** The detector as the design document words it: the first position of
    the first run of three flagged positions. *)
Fixpoint first_run (flags : list bool) : option nat :=
  match flags with
  | [] => None
  | b :: t =>
      if b && nth 0 t false && nth 1 t false then Some 0%nat
      else option_map S (first_run t)
  end.

(** *** The breakaway sample and the statistics of a phase *)

(** [float(df_state[col].iloc[ba_idx]) if ba_idx is not None else np.nan];
    [None] is the [IndexError] of [iloc]. *)
Definition ba_value (df_state : curve) (col : sample -> float) : option float :=
  match find_breakaway_index (map displacement df_state) with
  | Some ba_idx => nth_error (map col df_state) ba_idx
  | None => Some NaN
  end.

Definition ba_force (df_state : curve) : option float := ba_value df_state force.
Definition ba_disp (df_state : curve) : option float :=
  ba_value df_state displacement.

(** [Series.max] and [Series.min]: NaN is skipped, and NaN is returned when
    nothing is left. *)
Definition keep_greater (best v : float) : float :=
  if isnan v then best
  else if isnan best then v
  else if flt best v then v else best.

Definition keep_smaller (best v : float) : float :=
  if isnan v then best
  else if isnan best then v
  else if flt v best then v else best.

Definition series_max (l : list float) : float := fold_left keep_greater l NaN.
Definition series_min (l : list float) : float := fold_left keep_smaller l NaN.

(** The count and the extremes in the dictionary that [force_disp_stats]
    returns, the keys being the fields, in a module of their own. The keys
    [force_mean] and [disp_ptp], whose values are rounded results of a sum,
    a quotient and a difference, are not part of this record. *)
Module Stats.

Record stats : Type := mk_stats {
  n : nat;
  force_max : float;
  force_min : float;
  disp_max : float;
  disp_min : float
}.

End Stats.

(** [force_disp_stats]; a curve has both columns. *)
Definition force_disp_stats (df_fd : curve) : Stats.stats :=
  match df_fd with
  | [] => Stats.mk_stats 0 NaN NaN NaN NaN
  | _ =>
      let f := map force df_fd in
      let d := map displacement df_fd in
      Stats.mk_stats (length df_fd)
               (series_max f) (series_min f)
               (series_max d) (series_min d)
  end.

(** *** Quality filter and acceptance bands of [extract_features_for_groups] *)

(** The value of [k_use] that the row keeps, from [k_raw]. *)
Definition filter_stiffness (k_raw : float) : float :=
  let k_use := k_raw in
  if isfinite k_use && (fle STIFFNESS_NEG_CLAMP_EPS k_use && flt k_use zero)
  then zero
  else if isfinite k_use
          && (flt k_use STIFFNESS_NEG_CLAMP_EPS || fgt k_use STIFFNESS_MAX_ABS)
  then NaN
  else k_use.

(** The entry of the [in_band] column for a row of breakaway force [f]. *)
Definition in_band (f : float) : bool :=
  let in_comp := fge f (fst COMP_BAND_N) && fle f (snd COMP_BAND_N) in
  let in_tens := fge f (fst TENS_BAND_N) && fle f (snd TENS_BAND_N) in
  in_comp || in_tens.

(** The whole column, from the column [breakaway_force_N]. *)
Definition in_band_column (breakaway_force_N : list float) : list bool :=
  map in_band breakaway_force_N.

End features.

Import features.

(** ** features.py: the phases and the flag [stiff_ok] *)

Module phases.

Import String.
Local Open Scope string_scope.

Definition STIFF_OK_STATES : list string :=
  ["TESTINGPOSITIVE"; "TESTINGNEGATIVE"; "MOVINGNEGATIVE"].

(** The keys of [state_map], in the order of the loop. *)
Definition state_names : list string :=
  ["MOVINGNEGATIVE"; "TESTINGPOSITIVE"; "TESTINGNEGATIVE"].

(** A recognized state name and one that is not, for the examples. *)
Definition a_testing_state : string := "TESTINGPOSITIVE".
Definition an_unknown_state : string := "PARKED".

(** The entry [stiff_ok] of a row. *)
Definition stiff_ok (state_name : string) (k_use : float) : bool :=
  existsb (String.eqb state_name) STIFF_OK_STATES
  && isfinite k_use
  && (fle zero k_use && fle k_use STIFFNESS_MAX_ABS).

End phases.

(** ** scan_status.py *)

Module scan_status.

Local Open Scope Z_scope.

Definition N_HP : Z := 6.

(** [index.searchsorted(t_ref, side="left")] is a bisection of the labels:
    between the positions [lo] and [hi], the middle label decides which
    half is kept. The interval shrinks at every step, so [hi - lo] steps
    are enough. *)
Fixpoint bisect_left (fuel : nat) (index : list Z) (key : Z) (lo hi : nat)
  : nat :=
  match fuel with
  | O => lo
  | S fuel' =>
      if (lo <? hi)%nat then
        let mid := (lo + (hi - lo) / 2)%nat in
        if nth mid index 0 <? key
        then bisect_left fuel' index key (S mid) hi
        else bisect_left fuel' index key lo mid
      else lo
  end.

Definition searchsorted (index : list Z) (key : Z) : nat :=
  bisect_left (length index) index key 0 (length index).

(** [align_to_status_index], on the index of [sts]. *)
Definition align_to_status_index (sts : list Z) (t_ref : Z) : option Z :=
  match sts with
  | [] => None
  | _ =>
      let pos := searchsorted sts t_ref in
      if (length sts <=? pos)%nat then None else nth_error sts pos
  end.

(** [list(range(n))]. *)
Definition range (n : Z) : list Z := map Z.of_nat (seq 0 (Z.to_nat n)).

(** [[int(hp) - 1 for hp in uniq_hp if 1 <= int(hp) <= N_HP]
     or list(range(N_HP))]. *)
Definition hp_indices (uniq_hp : list Z) : list Z :=
  match
    map (fun hp => hp - 1)
        (filter (fun hp => (1 <=? hp) && (hp <=? N_HP)) uniq_hp)
  with
  | [] => range N_HP
  | l => l
  end.

(** [Series.unique]: the values in the order in which they first appear. *)
Fixpoint unique (l : list Z) : list Z :=
  match l with
  | [] => []
  | x :: t => x :: filter (fun y => negb (y =? x)) (unique t)
  end.

(** [sorted(s.dropna().unique())] for a column of hardpoint numbers. *)
Definition uniq_hp (s : series (option Z)) : list Z :=
  sort_index (fun hp => hp) (unique (map snd (dropna s))).

(** *** The summary of the commands by group *)

Module Summary.

Record summary : Type := mk_summary {
  group_id : Z;
  reference_time : Z;
  n_cmds : nat;
  uniq_hp : list Z
}.

End Summary.

(** The rows of [cmd] whose [group_id] is [g]. *)
Definition members (cmd : series (option Z)) (gids : list Z) (g : Z)
  : series (option Z) :=
  map snd (filter (fun x => fst x =? g) (combine gids cmd)).

(** The aggregation [min] of the labels of a group. *)
Definition index_min (m : series (option Z)) : Z :=
  match map fst m with
  | [] => 0
  | x :: t => fold_left Z.min t x
  end.

(** [gsum]: one row for each value of [group_id], in increasing order, of
    the frame of commands [cmd] (labels and [hardpointActuator]) that
    [group_by_gaps] has numbered. *)
Definition gsum (cmd : series (option Z)) (group_gap : Z)
  : list Summary.summary :=
  let gids := group_by_gaps (map fst cmd) group_gap in
  map (fun g =>
         let m := members cmd gids g in
         Summary.mk_summary g (index_min m) (length m) (uniq_hp m))
      (sort_index (fun g => g) (unique gids)).

(** *** The loop over the groups *)

(** A row [r] of [gsum] with the index of the status frame of its chunk
    and with what [compute_end_time_from_status] returns for it. *)
Module Group.

Record group : Type := mk_group {
  r : Summary.summary;
  sts : list Z;
  end_time : option Z
}.

End Group.

(** The dictionary appended to [group_rows], without the strings [date]
    and [uniq_hp]; [hp_indices] is kept as the list it prints. *)
Module Row.

Record row : Type := mk_row {
  group_id : Z;
  t_start_utc : Z;
  t_end_utc : Z;
  duration_s : float;
  n_cmds : nat;
  hp_indices : list Z
}.

End Row.

Definition key : Type := Z * Z * list Z.

Definition key_eqb (a b : key) : bool :=
  let '(a0, a1, ah) := a in
  let '(b0, b1, bh) := b in
  (a0 =? b0) && (a1 =? b1)
  && if list_eq_dec Z.eq_dec ah bh then true else false.

(** [(t1 - t0).total_seconds()]. *)
Definition total_seconds (ns : Z) : float :=
  of_Q (inject_Z ns / inject_Z 1000000000).

(** The key of a group, [None] when the loop goes on to the next group
    before it builds one. *)
Definition window (g : Group.group) : option key :=
  let hp := hp_indices (Summary.uniq_hp (Group.r g)) in
  match
    align_to_status_index (Group.sts g) (Summary.reference_time (Group.r g))
  with
  | None => None
  | Some t0 =>
      match Group.end_time g with
      | None => None
      | Some t1 => if t1 <=? t0 then None else Some (t0, t1, hp)
      end
  end.

Definition row_of (g : Group.group) (k : key) : Row.row :=
  let '(t0, t1, hp) := k in
  Row.mk_row (Summary.group_id (Group.r g)) t0 t1 (total_seconds (t1 - t0))
             (Summary.n_cmds (Group.r g)) hp.

(** One turn of the loop, on [seen] and [group_rows]. *)
Definition record_group (st : list key * list Row.row) (g : Group.group)
  : list key * list Row.row :=
  let '(seen, group_rows) := st in
  match window g with
  | None => st
  | Some k =>
      if existsb (key_eqb k) seen then st
      else (k :: seen, group_rows ++ [row_of g k])
  end.

(** The groups of all the chunks, in the order in which the two loops
    visit them. *)
Definition scan_groups (groups : list Group.group)
  : list key * list Row.row :=
  fold_left record_group groups ([], []).

Definition group_rows (groups : list Group.group) : list Row.row :=
  snd (scan_groups groups).

Definition row_key (x : Row.row) : key :=
  (Row.t_start_utc x, Row.t_end_utc x, Row.hp_indices x).

(** What the loop keeps true of [seen] and [group_rows], with the groups
    [visited] so far. *)
Definition scanned (visited : list Group.group) (st : list key * list Row.row)
  : Prop :=
  (forall k, In k (fst st) <-> In k (map row_key (snd st))) /\
  NoDup (map row_key (snd st)) /\
  (forall k, In k (fst st) <-> exists g, In g visited /\ window g = Some k) /\
  (forall x, In x (snd st) ->
     exists gs1 g gs2,
       visited = gs1 ++ g :: gs2 /\ window g = Some (row_key x) /\
       x = row_of g (row_key x) /\
       forall g', In g' gs1 -> window g' <> Some (row_key x)).

End scan_status.

(** ** Binary64 numbers *)

(** The numbers of a numpy array of [float64], with the arithmetic of
    IEEE 754 rounded to nearest, ties to even, as the Standard Library
    specifies it. The slope of [features.py] is embedded on these numbers
    too, for what depends on the rounding of its sums, products and
    quotient. *)
Module Binary64.

Local Open Scope Z_scope.

Definition prec : Z := 53.
Definition emax : Z := 1024.

Definition b64 : Type := SpecFloat.spec_float.

Definition nan : b64 := SpecFloat.S754_nan.
Definition zero : b64 := SpecFloat.S754_zero false.

Definition add : b64 -> b64 -> b64 := SpecFloat.SFadd prec emax.
Definition mul : b64 -> b64 -> b64 := SpecFloat.SFmul prec emax.
Definition div : b64 -> b64 -> b64 := SpecFloat.SFdiv prec emax.

(** [==] and [<] of two numbers: false with a NaN, and the two zeros are
    equal. *)
Definition eqb : b64 -> b64 -> bool := SpecFloat.SFeqb.
Definition ltb : b64 -> b64 -> bool := SpecFloat.SFltb.

(** [np.isfinite]. *)
Definition isfinite (x : b64) : bool :=
  match x with
  | SpecFloat.S754_zero _ | SpecFloat.S754_finite _ _ _ => true
  | SpecFloat.S754_infinity _ | SpecFloat.S754_nan => false
  end.

(** [float(z)], the number [2.0 ** e], and the number nearest to [n / d],
    which is what a literal such as [0.1] or [0.7] denotes. *)
Definition of_Z (z : Z) : b64 := SpecFloat.binary_normalize prec emax z 0 false.
Definition pow2 (e : Z) : b64 := SpecFloat.binary_normalize prec emax 1 e false.
Definition ratio (n d : Z) : b64 := div (of_Z n) (of_Z d).

(** *** features.py: the slope on arrays of [float64] *)

(** [np.dot] of two one-dimensional arrays, the products added from left
    to right (with one element there is a single product, and no order to
    choose); [None] is the [ValueError] for arrays of different lengths. *)
Fixpoint dot_from (acc : b64) (x y : list b64) : option b64 :=
  match x, y with
  | [], [] => Some acc
  | a :: x', b :: y' => dot_from (add acc (mul a b)) x' y'
  | _, _ => None
  end.

Definition dot (x y : list b64) : option b64 := dot_from zero x y.

Definition slope_through_origin (x y : list b64) : option b64 :=
  match dot x x with
  | None => None
  | Some denom =>
      if eqb denom zero || negb (isfinite denom) then Some nan
      else option_map (fun num => div num denom) (dot x y)
  end.

End Binary64.

(** ** Sample inputs of the design document *)

Module samples.

Local Open Scope Z_scope.

Definition ramp : list float := map of_Z [0; 0; 0; 0; 2; 4; 6; 0; 0].
Definition glitch : list float := map of_Z [0; 0; 3; 0; 0].
Definition steps : list float := map of_Z [0; 2; 4; 6].

(** A state series with a missing value, inside the window [0, 10]. *)
Definition gappy : series (option Z) := [(5, Some 1); (8, Some 2); (9, None)].

(** A curve with a preload, its rows out of order. *)
Definition preload : curve :=
  [mk_sample 20 (of_Z 5) (of_Z 7); mk_sample 10 (of_Z (-3)) (of_Z 4);
   mk_sample 30 (of_Z 3) (of_Z 9)].

Definition centred : curve :=
  [mk_sample 10 (of_Z 0) (of_Z 0); mk_sample 20 (of_Z 8) (of_Z 3);
   mk_sample 30 (of_Z 6) (of_Z 5)].

(** Two segments of state 1 of the same greatest duration. *)
Definition tie : list segment :=
  [(0, 5, 1); (3, 3, 1); (10, 15, 1); (20, 22, 1); (30, 90, 2)].

(** Six commands in three bursts, and a gap of three minutes. *)
Definition bursts : list Z := [0; 60; 100; 400; 410; 1000].
Definition three_minutes : Z := 180.

(** Force and displacement over the window of [gappy], one row a second. *)
Definition telemetry : curve :=
  map (fun t => mk_sample t (of_Z (10 * t)) (of_Z t)) [0; 1; 4; 7; 8; 9; 12].

(** The commands of [bursts] with their hardpoints: one is missing, one
    is not a hardpoint, and hardpoint 4 comes before hardpoint 2. *)
Definition commands : series (option Z) :=
  [(0, Some 4); (60, Some 2); (100, None); (400, Some 4); (410, Some 7);
   (1000, Some 2)].

(** A group of commands on hardpoints 2 and 4, with the status index of
    its chunk and the end of its test; and two groups of one chunk. *)
Definition a_group : scan_status.Group.group :=
  scan_status.Group.mk_group
    (scan_status.Summary.mk_summary 0 50 3 [2; 4]) bursts (Some 700).

Definition two_groups : list scan_status.Group.group :=
  [a_group;
   scan_status.Group.mk_group
     (scan_status.Summary.mk_summary 1 405 2 [9]) bursts (Some 1200)].

End samples.

Import samples.

(** * Properties *)

(** ** Comparisons of finite numbers *)

Section FloatFacts.

Local Open Scope Qc_scope.

Lemma Qc_compare_refl (a : Qc) : Qccompare a a = Eq.
Proof. apply Qceq_alt. reflexivity. Qed.

Lemma flt_Fin (a b : Qc) : flt (Fin a) (Fin b) = true <-> a < b.
Proof.
  unfold flt; simpl. rewrite Qclt_alt.
  destruct (Qccompare a b); split; congruence.
Qed.

Lemma fle_Fin (a b : Qc) : fle (Fin a) (Fin b) = true <-> a <= b.
Proof.
  unfold fle; simpl. rewrite Qcle_alt.
  destruct (Qccompare a b); split; congruence.
Qed.


Lemma flt_nan_l (y : float) : flt NaN y = false.
Proof. reflexivity. Qed.

Lemma flt_nan_r (x : float) : flt x NaN = false.
Proof. destruct x; reflexivity. Qed.

Lemma fle_nan_l (y : float) : fle NaN y = false.
Proof. reflexivity. Qed.

Lemma fle_nan_r (x : float) : fle x NaN = false.
Proof. destruct x; reflexivity. Qed.

Lemma fsub_Fin (a b : Qc) : fsub (Fin a) (Fin b) = Fin (a - b).
Proof. reflexivity. Qed.

Lemma flt_Fin_false (a b : Qc) : flt (Fin a) (Fin b) = false <-> b <= a.
Proof.
  rewrite <- not_true_iff_false, flt_Fin. split.
  - apply Qcnot_lt_le.
  - apply Qcle_not_lt.
Qed.

Lemma fle_Fin_false (a b : Qc) : fle (Fin a) (Fin b) = false <-> b < a.
Proof.
  rewrite <- not_true_iff_false, fle_Fin. split.
  - apply Qcnot_le_lt.
  - apply Qclt_not_le.
Qed.

End FloatFacts.

(** Linear arithmetic over [Qc], through [Q]. *)
Ltac qc_order :=
  unfold Qclt, Qcle in *; cbn in *; lra.

(** ** The breakaway detector *)

Section Breakaway.

Lemma run_at_iff (l : list bool) (i : nat) :
  run_at l i <->
  nth i l false = true /\ nth (i + 1) l false = true /\ nth (i + 2) l false = true.
Proof.
  unfold run_at, BREAKAWAY_MIN_CONSEC. split.
  - intros H. repeat split.
    + rewrite <- (Nat.add_0_r i). apply H. lia.
    + apply H. lia.
    + apply H. lia.
  - intros (H0 & H1 & H2) k Hk.
    assert (k = 0 \/ k = 1 \/ k = 2)%nat as [-> | [-> | ->]] by lia; auto.
    now rewrite Nat.add_0_r.
Qed.

Lemma run_at_cons (b : bool) (l : list bool) (i : nat) :
  run_at (b :: l) (S i) <-> run_at l i.
Proof. unfold run_at. simpl. tauto. Qed.

Lemma run_at_0 (b : bool) (l : list bool) :
  run_at (b :: l) 0 <-> b && nth 0 l false && nth 1 l false = true.
Proof.
  rewrite run_at_iff. simpl. rewrite !andb_true_iff. tauto.
Qed.

Lemma first_run_some (l : list bool) (i : nat) :
  first_run l = Some i <-> run_at l i /\ forall j, (j < i)%nat -> ~ run_at l j.
Proof.
  revert i. induction l as [| b t IH]; intros i; simpl.
  - split; [discriminate |]. intros [H _].
    apply run_at_iff in H. destruct H as [H _]. now destruct i.
  - destruct (b && nth 0 t false && nth 1 t false) eqn:E.
    + split.
      * intros [= <-]. split; [now apply run_at_0 | intros j Hj; lia].
      * intros [_ Hmin]. destruct i as [| i]; [reflexivity |].
        exfalso. apply (Hmin 0%nat); [lia | now apply run_at_0].
    + destruct i as [| i].
      * split.
        -- destruct (first_run t); discriminate.
        -- intros [Hi _]. apply run_at_0 in Hi. congruence.
      * rewrite run_at_cons. transitivity (first_run t = Some i).
        -- destruct (first_run t); simpl; split; congruence.
        -- rewrite IH. split; intros [Hi Hmin]; (split; [exact Hi |]).
           ++ intros [| j] Hj.
              ** rewrite run_at_0. congruence.
              ** rewrite run_at_cons. apply Hmin. lia.
           ++ intros j Hj Hrun. apply (Hmin (S j)); [lia |].
              now rewrite run_at_cons.
Qed.

Lemma first_run_none (l : list bool) :
  first_run l = None <-> forall j, ~ run_at l j.
Proof.
  split.
  - intros H j Hj.
    assert (exists i, run_at l i /\ forall k, (k < i)%nat -> ~ run_at l k) as (i & Hi).
    { clear H. induction j as [j IHj] using lt_wf_ind.
      destruct (first_run l) as [r |] eqn:Er.
      - exists r. now apply first_run_some.
      - exists j. split; [assumption |]. intros k Hk Hrun.
        destruct (IHj k Hk Hrun) as (i & Hi). apply first_run_some in Hi. congruence. }
    apply first_run_some in Hi. congruence.
  - intros H. destruct (first_run l) as [r |] eqn:Er; [| reflexivity].
    apply first_run_some in Er. now destruct (H r).
Qed.

Lemma scan_first_run (flags : list bool) :
  forall (i c : nat) (first : option nat),
    (c < BREAKAWAY_MIN_CONSEC)%nat -> (c <= i)%nat ->
    first = match c with O => None | S _ => Some (i - c)%nat end ->
    scan flags i c first =
    option_map (Nat.add (i - c)) (first_run (repeat true c ++ flags)).
Proof.
  unfold BREAKAWAY_MIN_CONSEC.
  induction flags as [| ok rest IH]; intros i c first Hc Hi ->.
  - destruct c as [| [| [| c]]]; try lia; reflexivity.
  - destruct ok.
    + destruct c as [| [| [| c]]]; try lia.
      * cbn [scan BREAKAWAY_MIN_CONSEC Nat.leb].
        rewrite (IH (S i) 1%nat (Some i)); try lia.
        all: simpl; now rewrite Nat.sub_0_r.
      * cbn [scan BREAKAWAY_MIN_CONSEC Nat.leb].
        rewrite (IH (S i) 2%nat (Some (i - 1)%nat)); try lia.
        all: try reflexivity.
        all: f_equal; lia.
      * simpl. f_equal. lia.
    + cbn [scan]. rewrite (IH (S i) 0%nat None); try lia; [| reflexivity].
      destruct c as [| [| [| c]]]; try lia; simpl;
        destruct (first_run rest); simpl; f_equal; lia.
Qed.

Lemma first_run_no_flag (l : list bool) :
  existsb (fun b => b) l = false -> first_run l = None.
Proof.
  induction l as [| b t IH]; simpl; [reflexivity |].
  intros H. apply orb_false_iff in H. destruct H as [-> H].
  simpl. now rewrite IH.
Qed.

Lemma find_breakaway_index_first_run (d : list float) :
  find_breakaway_index d = first_run (above d).
Proof.
  unfold find_breakaway_index. destruct d as [| x t]; [reflexivity |].
  destruct (existsb (fun b => b) (above (x :: t))) eqn:E; simpl negb; cbv iota.
  - rewrite scan_first_run with (c := 0%nat); unfold BREAKAWAY_MIN_CONSEC; try lia;
      [| reflexivity].
    simpl repeat. simpl app. now destruct (first_run (above (x :: t))).
  - symmetry. now apply first_run_no_flag.
Qed.

Lemma above_from_nth (t : list float) :
  forall (prev : float) (q : nat),
    nth q (map (fun v => fgt (fabs v) BREAKAWAY_DISP_UM) (diff_from prev t))
        false = true <->
    exists a b, nth_error (prev :: t) q = Some a /\ nth_error t q = Some b /\
                jump a b = true.
Proof.
  induction t as [| x t IH]; intros prev q.
  - simpl. split.
    + now destruct q.
    + intros (a & b & _ & H & _). now destruct q.
  - destruct q as [| q].
    + simpl. split.
      * intros H. now exists prev, x.
      * now intros (a & b & [= <-] & [= <-] & H).
    + simpl map. simpl nth. rewrite IH. reflexivity.
Qed.

Lemma above_nth (d : list float) (p : nat) :
  nth p (above d) false = true <->
  (1 <= p)%nat /\
  exists a b, nth_error d (p - 1) = Some a /\ nth_error d p = Some b /\
              jump a b = true.
Proof.
  unfold above. destruct d as [| x t].
  - simpl. split; [now destruct p |].
    intros (_ & a & b & _ & H & _). now destruct p.
  - destruct p as [| p].
    + simpl. split; [discriminate | intros [H _]; lia].
    + simpl diff. simpl map. simpl nth. rewrite above_from_nth.
      simpl. rewrite Nat.sub_0_r. split.
      * intros H. split; [lia | exact H].
      * now intros [_ H].
Qed.

(** C1: a position is flagged when the absolute difference with the
    previous sample exceeds 1.0 um; the detector returns the first position
    of the first run of 3 consecutive flagged positions, and none when there
    is no such run or the series is empty; it returns 4 on
    [0,0,0,0,2,4,6,0,0] and none on [0,0,3,0,0]. *)
Theorem find_breakaway_index_spec :
  (forall (d : list float) (p : nat),
      nth p (above d) false = true <->
      (1 <= p)%nat /\
      exists a b, nth_error d (p - 1) = Some a /\ nth_error d p = Some b /\
                  fgt (fabs (fsub b a)) BREAKAWAY_DISP_UM = true) /\
  (forall (d : list float) (i : nat),
      find_breakaway_index d = Some i <->
      run_at (above d) i /\ forall j, (j < i)%nat -> ~ run_at (above d) j) /\
  (forall d : list float,
      find_breakaway_index d = None <-> forall j, ~ run_at (above d) j) /\
  find_breakaway_index [] = None /\
  find_breakaway_index ramp = Some 4%nat /\
  find_breakaway_index glitch = None.
Proof.
  split; [exact above_nth |].
  split; [intros d i; rewrite find_breakaway_index_first_run; apply first_run_some |].
  split; [intros d; rewrite find_breakaway_index_first_run; apply first_run_none |].
  repeat split; reflexivity.
Qed.

Lemma find_breakaway_index_range (d : list float) (i : nat) :
  find_breakaway_index d = Some i -> (1 <= i)%nat /\ (i + 3 <= length d)%nat.
Proof.
  rewrite find_breakaway_index_first_run, first_run_some.
  intros [Hrun _]. apply run_at_iff in Hrun. destruct Hrun as (H0 & _ & H2).
  apply above_nth in H0. apply above_nth in H2.
  destruct H0 as [Hi _]. destruct H2 as (_ & a & b & _ & Hb & _).
  split; [exact Hi |].
  assert (i + 2 < length d)%nat by (apply nth_error_Some; congruence).
  lia.
Qed.

(** C10: an index returned by the detector is at least 1, and a series of
    fewer than 4 samples has no breakaway; 4 samples can have one. *)
Theorem find_breakaway_index_bounds :
  (forall (d : list float) (i : nat),
      find_breakaway_index d = Some i -> (1 <= i)%nat) /\
  (forall d : list float,
      (length d < 4)%nat -> find_breakaway_index d = None) /\
  find_breakaway_index steps = Some 1%nat.
Proof.
  split; [intros d i H; now apply find_breakaway_index_range in H |].
  split; [| reflexivity].
  intros d Hlen. destruct (find_breakaway_index d) as [i |] eqn:E; [| reflexivity].
  apply find_breakaway_index_range in E. lia.
Qed.

(** The bounds on [steps], which has a breakaway at 1, and on its first
    three samples. *)
Lemma find_breakaway_index_bounds_witness :
  (1 <= 1)%nat /\ find_breakaway_index (firstn 3 steps) = None.
Proof.
  split.
  - apply (proj1 find_breakaway_index_bounds steps 1%nat). reflexivity.
  - apply (proj1 (proj2 find_breakaway_index_bounds)). simpl. lia.
Defined.

End Breakaway.

(** ** The quality filter on the fitted stiffness *)

Section Filter.

Local Open Scope Qc_scope.

Lemma filter_clamp (q : Qc) :
  Q2Qc (-0.5) <= q -> q < 0 -> filter_stiffness (Fin q) = Fin 0.
Proof.
  intros H1 H2. unfold filter_stiffness. cbn [isfinite andb].
  unfold STIFFNESS_NEG_CLAMP_EPS, of_Q, zero.
  apply fle_Fin in H1. apply flt_Fin in H2. now rewrite H1, H2.
Qed.

Lemma filter_discard (q : Qc) :
  q < Q2Qc (-0.5) \/ Q2Qc 100 < q -> filter_stiffness (Fin q) = NaN.
Proof.
  intros H. unfold filter_stiffness. cbn [isfinite andb].
  unfold STIFFNESS_NEG_CLAMP_EPS, STIFFNESS_MAX_ABS, of_Q, of_Z, zero, fgt.
  destruct H as [H | H].
  - assert (fle (Fin (Q2Qc (-0.5))) (Fin q) = false) as ->
      by (apply fle_Fin_false; exact H).
    apply flt_Fin in H. now rewrite H.
  - assert (flt (Fin q) (Fin 0) = false) as ->
      by (apply flt_Fin_false; qc_order).
    rewrite andb_false_r.
    assert (flt (Fin (Q2Qc (inject_Z 100))) (Fin q) = true) as ->
      by (apply flt_Fin; qc_order).
    now rewrite orb_true_r.
Qed.

Lemma filter_keep (q : Qc) :
  0 <= q -> q <= Q2Qc 100 -> filter_stiffness (Fin q) = Fin q.
Proof.
  intros H1 H2. unfold filter_stiffness. cbn [isfinite andb].
  unfold STIFFNESS_NEG_CLAMP_EPS, STIFFNESS_MAX_ABS, of_Q, of_Z, zero, fgt.
  assert (flt (Fin q) (Fin 0) = false) as ->
    by (apply flt_Fin_false; exact H1).
  rewrite andb_false_r.
  assert (flt (Fin q) (Fin (Q2Qc (-0.5))) = false) as ->
    by (apply flt_Fin_false; qc_order).
  assert (flt (Fin (Q2Qc (inject_Z 100))) (Fin q) = false) as ->
    by (apply flt_Fin_false; qc_order).
  reflexivity.
Qed.

(** C2: a finite raw stiffness in [-0.5, 0) becomes 0.0, one below -0.5 or
    above 100.0 becomes undefined (NaN), any other is kept; -0.2 gives 0.0,
    -0.8 and 150.0 give NaN, 5.0 is kept. *)
Theorem filter_stiffness_spec :
  (forall q : Qc,
      (Q2Qc (-0.5) <= q /\ q < 0 -> filter_stiffness (Fin q) = Fin 0) /\
      (q < Q2Qc (-0.5) \/ Q2Qc 100 < q -> filter_stiffness (Fin q) = NaN) /\
      (0 <= q /\ q <= Q2Qc 100 -> filter_stiffness (Fin q) = Fin q)) /\
  filter_stiffness (of_Q (-0.2)) = of_Q 0 /\
  filter_stiffness (of_Q (-0.8)) = NaN /\
  filter_stiffness (of_Q 150) = NaN /\
  filter_stiffness (of_Q 5) = of_Q 5.
Proof.
  split; [| repeat split; reflexivity].
  intros q. split; [| split].
  - intros [H1 H2]. now apply filter_clamp.
  - apply filter_discard.
  - intros [H1 H2]. now apply filter_keep.
Qed.

(** The three branches, at -0.2, 150 and 5. *)
Lemma filter_stiffness_spec_witness :
  filter_stiffness (Fin (Q2Qc (-0.2))) = Fin 0 /\
  filter_stiffness (Fin (Q2Qc 150)) = NaN /\
  filter_stiffness (Fin (Q2Qc 5)) = Fin (Q2Qc 5).
Proof.
  split; [| split].
  - apply (proj1 (proj1 filter_stiffness_spec (Q2Qc (-0.2)))). split; qc_order.
  - apply (proj1 (proj2 (proj1 filter_stiffness_spec (Q2Qc 150)))).
    right. qc_order.
  - apply (proj2 (proj2 (proj1 filter_stiffness_spec (Q2Qc 5)))). split; qc_order.
Defined.

(** C3, as the design document has it, fails: the raw value -0.5 is not
    discarded. *)
Lemma filter_stiffness_at_eps_not_discarded :
  filter_stiffness (of_Q (-0.5)) = of_Q 0 /\
  filter_stiffness (of_Q (-0.5)) <> NaN.
Proof. split; [reflexivity | discriminate]. Qed.

(** C3, amended: the raw value -0.5 takes the clamp branch and becomes 0.0;
    a finite value is discarded exactly when it is strictly below -0.5 or
    strictly above 100.0. *)
Theorem filter_stiffness_at_eps :
  filter_stiffness STIFFNESS_NEG_CLAMP_EPS = zero /\
  forall q : Qc,
    filter_stiffness (Fin q) = NaN <-> q < Q2Qc (-0.5) \/ Q2Qc 100 < q.
Proof.
  split; [reflexivity |].
  intros q. split; [| apply filter_discard].
  intros H.
  destruct (Qclt_le_dec q (Q2Qc (-0.5))) as [Hlo | Hlo]; [now left |].
  destruct (Qclt_le_dec (Q2Qc 100) q) as [Hhi | Hhi]; [now right |].
  exfalso. destruct (Qclt_le_dec q 0) as [Hneg | Hpos].
  - rewrite filter_clamp in H by assumption. discriminate.
  - rewrite filter_keep in H by assumption. discriminate.
Qed.

End Filter.

(** ** Acceptance bands *)

Section Bands.

Local Open Scope Qc_scope.

(** C4: [in_band] holds exactly for a finite breakaway force in the closed
    band [2981, 3959] or in the closed band [-4420, -3456]; a missing force
    (NaN) gives false; 3500.0 and -4000.0 give true, 0.0 gives false. *)
Theorem in_band_spec :
  (forall f : float,
      in_band f = true <->
      exists q : Qc,
        f = Fin q /\
        ((Q2Qc 2981 <= q /\ q <= Q2Qc 3959) \/
         (Q2Qc (-4420) <= q /\ q <= Q2Qc (-3456)))) /\
  in_band NaN = false /\
  in_band (of_Q 3500) = true /\
  in_band (of_Q (-4000)) = true /\
  in_band (of_Q 0) = false.
Proof.
  split; [| repeat split; reflexivity].
  intros f. destruct f as [| | | q].
  1-3: split; [discriminate | intros (q & H & _); discriminate].
  unfold in_band, fge, COMP_BAND_N, TENS_BAND_N, of_Z. cbn [fst snd].
  rewrite orb_true_iff, !andb_true_iff, !fle_Fin. split.
  - intros H. exists q. split; [reflexivity | exact H].
  - intros (q' & [= <-] & H). exact H.
Qed.

End Bands.

(** ** The longest segment of a state *)

Section Longest.

Local Open Scope Z_scope.

Lemma py_max_split {A : Type} (key : A -> Z) (l : list A) :
  forall x : A,
  exists l1 l2,
    x :: l = l1 ++ py_max key x l :: l2 /\
    (forall c, In c l1 -> key c < key (py_max key x l)) /\
    (forall c, In c l2 -> key c <= key (py_max key x l)).
Proof.
  unfold py_max. induction l as [| y l IH]; intros x.
  - exists [], []. simpl. repeat split; intros c [].
  - simpl. destruct (key x <? key y) eqn:E.
    + apply Z.ltb_lt in E.
      destruct (IH y) as (l1 & l2 & Heq & H1 & H2).
      set (m := fold_left _ l y) in *.
      assert (key y <= key m) as Hy.
      { assert (In y (l1 ++ m :: l2)) as Hin by (rewrite <- Heq; now left).
        apply in_app_or in Hin. destruct Hin as [Hin | [-> | Hin]].
        - apply H1 in Hin. lia.
        - lia.
        - now apply H2. }
      exists (x :: l1), l2. repeat split.
      * simpl. now rewrite Heq.
      * intros c [<- | Hc]; [lia | now apply H1].
      * exact H2.
    + apply Z.ltb_ge in E.
      destruct (IH x) as (l1 & l2 & Heq & H1 & H2).
      set (m := fold_left _ l x) in *.
      destruct l1 as [| x' l1].
      * simpl in Heq. injection Heq as Hm Hl.
        exists [], (y :: l2). repeat split.
        -- simpl. now rewrite <- Hm, Hl.
        -- intros c [].
        -- intros c [<- | Hc]; [rewrite <- Hm; exact E | now apply H2].
      * simpl in Heq. injection Heq as Hx Hl. subst x'.
        exists (x :: y :: l1), l2. repeat split.
        -- simpl. now rewrite Hl.
        -- intros c [<- | [<- | Hc]].
           ++ apply H1. now left.
           ++ assert (key x < key m) by (apply H1; now left). lia.
           ++ apply H1. now right.
        -- exact H2.
Qed.

Lemma candidates_cons (g : segment) (segs : list segment) (target : Z) :
  candidates (g :: segs) target =
  (if is_candidate target g then [(seg_start g, seg_end g)] else [])
    ++ candidates segs target.
Proof. reflexivity. Qed.

Lemma candidates_split (target : Z) (segs : list segment) :
  forall (l1 l2 : list (Z * Z)) (c : Z * Z),
    candidates segs target = l1 ++ c :: l2 ->
    exists s1 s2,
      segs = s1 ++ (fst c, snd c, target) :: s2 /\
      fst c < snd c /\
      candidates s1 target = l1 /\ candidates s2 target = l2.
Proof.
  induction segs as [| g segs IH]; intros l1 l2 c H.
  - now destruct l1.
  - rewrite candidates_cons in H. destruct (is_candidate target g) eqn:E.
    + destruct l1 as [| c1 l1]; simpl in H; injection H as Hc Hl.
      * exists [], segs. unfold is_candidate in E.
        apply andb_true_iff in E. destruct E as [E1 E2].
        apply Z.eqb_eq in E1. apply Z.ltb_lt in E2.
        subst c. simpl. repeat split; try assumption.
        destruct g as [[a b] st]. unfold seg_state in E1. simpl in *. now subst.
      * destruct (IH _ _ _ Hl) as (s1 & s2 & -> & Hlt & H1 & H2).
        exists (g :: s1), s2. repeat split; try assumption.
        rewrite candidates_cons, E, H1. simpl. now subst.
    + simpl in H. destruct (IH _ _ _ H) as (s1 & s2 & -> & Hlt & H1 & H2).
      exists (g :: s1), s2. repeat split; try assumption.
      now rewrite candidates_cons, E.
Qed.

Lemma in_candidates (target : Z) (segs : list segment) (c : Z * Z) :
  In c (candidates segs target) <->
  exists g, In g segs /\ seg_state g = target /\ seg_start g < seg_end g /\
            c = (seg_start g, seg_end g).
Proof.
  unfold candidates, is_candidate. rewrite in_flat_map. split.
  - intros (g & Hg & Hc). exists g.
    destruct (seg_state g =? target) eqn:E1; [| now simpl in Hc].
    destruct (seg_start g <? seg_end g) eqn:E2; [| now simpl in Hc].
    simpl in Hc. destruct Hc as [<- | []].
    apply Z.eqb_eq in E1. apply Z.ltb_lt in E2. auto.
  - intros (g & Hg & E1 & E2 & ->). exists g. split; [assumption |].
    apply Z.eqb_eq in E1. apply Z.ltb_lt in E2. rewrite E1, E2. now left.
Qed.

(** C9: [pick_longest_segment] returns none exactly when no segment of the
    target state has positive duration; otherwise it returns a segment of
    the target state, of positive duration, at least as long as every other
    candidate and strictly longer than every candidate before it in the
    list (of equally long candidates the first wins). *)
Theorem pick_longest_segment_spec :
  (forall (segs : list segment) (target : Z),
      pick_longest_segment segs target = None <->
      forall g, In g segs -> seg_state g = target -> seg_end g <= seg_start g) /\
  (forall (segs : list segment) (target a b : Z),
      pick_longest_segment segs target = Some (a, b) ->
      a < b /\
      exists s1 s2,
        segs = s1 ++ (a, b, target) :: s2 /\
        (forall g, In g s1 -> seg_state g = target ->
                   seg_start g < seg_end g -> duration g < b - a) /\
        (forall g, In g s2 -> seg_state g = target ->
                   seg_start g < seg_end g -> duration g <= b - a)) /\
  pick_longest_segment tie 1 = Some (0, 5).
Proof.
  split; [| split; [| reflexivity]].
  - intros segs target. unfold pick_longest_segment. split.
    + destruct (candidates segs target) as [| c l] eqn:E; [| discriminate].
      intros _ g Hg Hst.
      destruct (Z_lt_le_dec (seg_start g) (seg_end g)) as [Hlt | Hle]; [| exact Hle].
      assert (In (seg_start g, seg_end g) (candidates segs target)) as Hin
        by (apply in_candidates; now exists g).
      rewrite E in Hin. destruct Hin.
    + intros H. destruct (candidates segs target) as [| c l] eqn:E; [reflexivity |].
      assert (In c (candidates segs target)) as Hin by (rewrite E; now left).
      apply in_candidates in Hin. destruct Hin as (g & Hg & Hst & Hlt & _).
      specialize (H g Hg Hst). lia.
  - intros segs target a b. unfold pick_longest_segment.
    destruct (candidates segs target) as [| c l] eqn:E; [discriminate |].
    intros [= Hmax].
    destruct (py_max_split (fun ab => snd ab - fst ab) l c) as (l1 & l2 & Heq & H1 & H2).
    rewrite Hmax in Heq, H1, H2. simpl in H1, H2.
    rewrite <- E in Heq.
    destruct (candidates_split _ _ _ _ _ Heq) as (s1 & s2 & -> & Hlt & Hc1 & Hc2).
    simpl in Hlt. split; [exact Hlt |].
    exists s1, s2. split; [reflexivity |]. unfold duration. split.
    + intros g Hg Hst Hpos.
      apply (H1 (seg_start g, seg_end g)). rewrite <- Hc1.
      apply in_candidates. now exists g.
    + intros g Hg Hst Hpos.
      apply (H2 (seg_start g, seg_end g)). rewrite <- Hc2.
      apply in_candidates. now exists g.
Qed.

(** The first of the two longest candidates of [tie]. *)
Lemma pick_longest_segment_spec_witness :
  0 < 5 /\
  exists s1 s2,
    tie = s1 ++ (0, 5, 1) :: s2 /\
    (forall g, In g s1 -> seg_state g = 1 ->
               seg_start g < seg_end g -> duration g < 5 - 0) /\
    (forall g, In g s2 -> seg_state g = 1 ->
               seg_start g < seg_end g -> duration g <= 5 - 0).
Proof.
  apply (proj1 (proj2 pick_longest_segment_spec) tie 1 0 5). reflexivity.
Defined.

End Longest.

(** ** Chunks of a date range *)

Section Chunks.

Local Open Scope Z_scope.

Lemma chunk_loop_more_fuel (end_ delta overlap : Z) (n : nat) :
  forall (m : nat) (cs : Z) (l : list (Z * Z)),
    chunk_loop n cs end_ delta overlap = Some l -> (n <= m)%nat ->
    chunk_loop m cs end_ delta overlap = Some l.
Proof.
  induction n as [| n IH]; intros m cs l H Hm; [discriminate |].
  destruct m as [| m]; [lia |]. simpl in *.
  destruct (cs <? end_); [| exact H].
  destruct (Z.min (cs + delta) end_ >=? end_); [exact H |].
  destruct (chunk_loop n _ end_ delta overlap) as [l' |] eqn:E; [| discriminate].
  rewrite (IH m _ l' E) by lia. exact H.
Qed.

Lemma chunk_loop_covers (end_ delta overlap : Z) :
  0 <= overlap < delta ->
  forall (n : nat) (cs : Z),
    cs < end_ -> end_ - cs < Z.of_nat n ->
    exists l, chunk_loop n cs end_ delta overlap = Some l /\
              covers cs end_ overlap l.
Proof.
  intros Hov. induction n as [| n IH]; intros cs Hcs Hn; [lia |].
  simpl. apply Z.ltb_lt in Hcs as Hb. rewrite Hb.
  destruct (Z.min (cs + delta) end_ >=? end_) eqn:E.
  - apply Z.geb_le in E.
    exists [(cs, Z.min (cs + delta) end_)]. split; [reflexivity |].
    unfold covers. simpl. repeat split.
    + discriminate.
    + lia.
    + constructor; [simpl; lia | constructor].
    + constructor.
  - rewrite Z.geb_leb in E. apply Z.leb_gt in E.
    assert (Z.min (cs + delta) end_ = cs + delta) as Hmin by lia.
    rewrite Hmin in *.
    destruct (IH (cs + delta - overlap)) as (l & Hl & Hne & Hhd & Hlast & Hpos & Hch);
      try lia.
    rewrite Hl. simpl. exists ((cs, cs + delta) :: l). split; [reflexivity |].
    unfold covers. repeat split.
    + discriminate.
    + destruct l as [| c l]; [contradiction |]. exact Hlast.
    + constructor; [simpl; lia | exact Hpos].
    + destruct l as [| c l]; [contradiction |].
      constructor; [exact Hch | simpl in *; lia].
Qed.

(** C8: for [start < end_], [days > 0] and [overlap_hours >= 0] the
    generator terminates (with enough fuel the loop returns, whatever the
    overlap asked for), the overlap used is zero when
    [overlap_hours >= days * 24], and the chunks cover the range: the first
    begins at [start], the last ends at [end_], and each later chunk begins
    no later than the end of the chunk before it. *)
Theorem chunk_ranges_utc_covers (start end_ days overlap_hours : Z) :
  start < end_ -> 0 < days -> 0 <= overlap_hours ->
  exists (fuel : nat) (chunks : list (Z * Z)),
    (forall fuel' : nat, (fuel <= fuel')%nat ->
        chunk_ranges_utc fuel' start end_ days overlap_hours = Some chunks) /\
    covers start end_
      (forced_overlap (days * NS_PER_DAY) (overlap_hours * NS_PER_HOUR)) chunks /\
    (days * 24 <= overlap_hours ->
     forced_overlap (days * NS_PER_DAY) (overlap_hours * NS_PER_HOUR) = 0).
Proof.
  intros Hse Hd Ho. unfold chunk_ranges_utc.
  set (ov := forced_overlap (days * NS_PER_DAY) (overlap_hours * NS_PER_HOUR)).
  assert (0 <= ov < days * NS_PER_DAY) as Hov.
  { unfold ov, forced_overlap, NS_PER_DAY, NS_PER_HOUR.
    destruct (_ >=? _) eqn:E.
    - lia.
    - rewrite Z.geb_leb in E. apply Z.leb_gt in E. lia. }
  destruct (chunk_loop_covers end_ _ _ Hov (S (Z.to_nat (end_ - start))) start)
    as (l & Hl & Hc); [exact Hse | lia |].
  exists (S (Z.to_nat (end_ - start))), l. split; [| split; [exact Hc |]].
  - intros fuel' Hf.
    now apply chunk_loop_more_fuel with (n := S (Z.to_nat (end_ - start))).
  - intros H. unfold ov, forced_overlap, NS_PER_DAY, NS_PER_HOUR.
    destruct (_ >=? _) eqn:E; [reflexivity |].
    rewrite Z.geb_leb in E. apply Z.leb_gt in E. lia.
Qed.

(** Ten days in chunks of three, with an overlap of 100 hours asked for. *)
Lemma chunk_ranges_utc_covers_witness :
  exists (fuel : nat) (chunks : list (Z * Z)),
    (forall fuel' : nat, (fuel <= fuel')%nat ->
        chunk_ranges_utc fuel' 0 (10 * NS_PER_DAY) 3 100 = Some chunks) /\
    covers 0 (10 * NS_PER_DAY)
      (forced_overlap (3 * NS_PER_DAY) (100 * NS_PER_HOUR)) chunks /\
    (3 * 24 <= 100 ->
     forced_overlap (3 * NS_PER_DAY) (100 * NS_PER_HOUR) = 0).
Proof.
  apply (chunk_ranges_utc_covers 0 (10 * NS_PER_DAY) 3 100);
    unfold NS_PER_DAY, NS_PER_HOUR; lia.
Defined.

Lemma chunk_ranges_utc_ten_days :
  chunk_ranges_utc 4 0 (10 * NS_PER_DAY) 3 100 =
  Some [(0, 3 * NS_PER_DAY); (3 * NS_PER_DAY, 6 * NS_PER_DAY);
        (6 * NS_PER_DAY, 9 * NS_PER_DAY); (9 * NS_PER_DAY, 10 * NS_PER_DAY)] /\
  chunk_ranges_utc 4 0 (5 * NS_PER_DAY) 2 12 =
  Some [(0, 2 * NS_PER_DAY); (36 * NS_PER_HOUR, 84 * NS_PER_HOUR);
        (72 * NS_PER_HOUR, 5 * NS_PER_DAY)].
Proof. split; reflexivity. Qed.

End Chunks.

(** ** The slope through the origin *)

Section Slope.

Local Open Scope Qc_scope.

Lemma sgn_Eq (q : Qc) : sgn q = Eq <-> q = 0.
Proof. unfold sgn. symmetry. apply Qceq_alt. Qed.

Lemma fdiv_Fin (a d : Qc) : d <> 0 -> fdiv (Fin a) (Fin d) = Fin (a / d).
Proof.
  intros Hd. simpl. destruct (sgn d) eqn:E; try reflexivity.
  apply sgn_Eq in E. contradiction.
Qed.


End Slope.

(** ** The slope on binary64 arrays *)

Section SlopeBinary64.

Import Binary64.

Lemma eqb_zero_inv (v : b64) :
  eqb v zero = true -> exists s : bool, v = SpecFloat.S754_zero s.
Proof.
  destruct v as [s | s | | s m e]; intros H.
  - now exists s.
  - destruct s; discriminate H.
  - discriminate H.
  - destruct s; discriminate H.
Qed.

Lemma dot_from_zeros (x : list b64) :
  Forall (fun v => eqb v zero = true) x -> dot_from zero x x = Some zero.
Proof.
  induction 1 as [| v x Hv _ IH]; [reflexivity |].
  cbn [dot_from]. apply eqb_zero_inv in Hv. destruct Hv as [s ->].
  assert (add zero (mul (SpecFloat.S754_zero s) (SpecFloat.S754_zero s)) = zero)
    as -> by (destruct s; reflexivity).
  exact IH.
Qed.

Lemma dot_from_same_length (x : list b64) :
  forall (y : list b64) (acc : b64),
    length x = length y -> exists v : b64, dot_from acc x y = Some v.
Proof.
  induction x as [| a x IH]; intros [| b y] acc Hlen; try discriminate.
  - now exists acc.
  - cbn [dot_from]. apply IH. simpl in Hlen. congruence.
Qed.

(** C6, as the code computes it: with a finite non-zero computed
    denominator the slope is the quotient, rounded, of the computed
    [dot(x, y)] by the computed [dot(x, x)], and arrays of one length always
    give a value; the result is undefined (NaN) when [x] is a zero vector
    and whenever the computed denominator is zero or not finite, which also
    happens for finite non-zero [x] whose squares underflow or overflow. *)
Theorem slope_through_origin_spec :
  (forall (x y : list b64) (denom : b64),
      dot x x = Some denom ->
      isfinite denom = true -> eqb denom zero = false ->
      slope_through_origin x y
      = option_map (fun num => div num denom) (dot x y)) /\
  (forall x y : list b64,
      length x = length y ->
      exists k : b64, slope_through_origin x y = Some k) /\
  (forall x y : list b64,
      Forall (fun v => eqb v zero = true) x ->
      slope_through_origin x y = Some nan) /\
  (forall (x y : list b64) (denom : b64),
      dot x x = Some denom ->
      eqb denom zero = true \/ isfinite denom = false ->
      slope_through_origin x y = Some nan) /\
  slope_through_origin (map of_Z [1; 2; 3]%Z) (map of_Z [2; 4; 6]%Z)
  = Some (of_Z 2) /\
  (isfinite (pow2 (-600)) = true /\ eqb (pow2 (-600)) zero = false /\
   slope_through_origin [pow2 (-600)] [of_Z 1] = Some nan) /\
  (isfinite (pow2 600) = true /\
   slope_through_origin [pow2 600] [of_Z 1] = Some nan).
Proof.
  split; [| split; [| split; [| split]]].
  - intros x y denom Hd Hfin Hnz. unfold slope_through_origin.
    now rewrite Hd, Hfin, Hnz.
  - intros x y Hlen. unfold slope_through_origin, dot.
    destruct (dot_from_same_length x x zero eq_refl) as [denom ->].
    destruct (eqb denom zero || negb (isfinite denom)); [now exists nan |].
    destruct (dot_from_same_length x y zero Hlen) as [num ->].
    now eexists.
  - intros x y Hz. unfold slope_through_origin, dot.
    now rewrite dot_from_zeros.
  - intros x y denom Hd [Hz | Hinf]; unfold slope_through_origin;
      rewrite Hd.
    + now rewrite Hz.
    + rewrite Hinf. now rewrite orb_true_r.
  - repeat split; vm_compute; reflexivity.
Qed.

(** The quotient formula on the arrays [1, 2, 3] and [2, 4, 6]. *)
Lemma slope_through_origin_spec_witness :
  slope_through_origin (map of_Z [1; 2; 3]%Z) (map of_Z [2; 4; 6]%Z)
  = option_map (fun num => div num (of_Z 14))
               (dot (map of_Z [1; 2; 3]%Z) (map of_Z [2; 4; 6]%Z)).
Proof.
  apply (proj1 slope_through_origin_spec); reflexivity.
Defined.

(** C6, against exact linearity in [y]: with [x = [3.0]], [y1 = [0.1]] and
    [y2 = [0.7]] the slope of [y1 + y2] is 0.26666666666666666
    (0x1.1111111111111p-2) and the sum of the two slopes is
    0.2666666666666666 (0x1.1111111111110p-2); with [x = [7.0]],
    [y = [0.7]] and [c = 3.0] the slope of [c * y] is 0.29999999999999993
    and [c] times the slope of [y] is 0.3. *)
Lemma slope_through_origin_not_linear :
  slope_through_origin [of_Z 3] [add (ratio 1 10) (ratio 7 10)]
  = Some (SpecFloat.S754_finite false 4803839602528529 (-54)) /\
  slope_through_origin [of_Z 3] [ratio 1 10]
  = Some (SpecFloat.S754_finite false 4803839602528530 (-57)) /\
  slope_through_origin [of_Z 3] [ratio 7 10]
  = Some (SpecFloat.S754_finite false 8406719304424924 (-55)) /\
  add (SpecFloat.S754_finite false 4803839602528530 (-57))
      (SpecFloat.S754_finite false 8406719304424924 (-55))
  = SpecFloat.S754_finite false 4803839602528528 (-54) /\
  ltb (SpecFloat.S754_finite false 4803839602528528 (-54))
      (SpecFloat.S754_finite false 4803839602528529 (-54)) = true /\
  slope_through_origin [of_Z 7] [mul (of_Z 3) (ratio 7 10)]
  = Some (SpecFloat.S754_finite false 5404319552844594 (-54)) /\
  slope_through_origin [of_Z 7] [ratio 7 10]
  = Some (SpecFloat.S754_finite false 7205759403792793 (-56)) /\
  mul (of_Z 3) (SpecFloat.S754_finite false 7205759403792793 (-56))
  = SpecFloat.S754_finite false 5404319552844595 (-54) /\
  ltb (SpecFloat.S754_finite false 5404319552844594 (-54))
      (SpecFloat.S754_finite false 5404319552844595 (-54)) = true.
Proof. repeat split; vm_compute; reflexivity. Qed.

End SlopeBinary64.

(** ** Sorting by label *)

Section SortFacts.

Local Open Scope Z_scope.

Context {A : Type} (key : A -> Z).

Lemma insert_row_perm (r : A) (l : list A) :
  Permutation (insert_row key r l) (r :: l).
Proof.
  induction l as [| h t IH]; simpl; [reflexivity |].
  destruct (key r <=? key h); [reflexivity |].
  rewrite IH. apply perm_swap.
Qed.

Lemma sort_index_perm (l : list A) : Permutation (sort_index key l) l.
Proof.
  induction l as [| h t IH]; simpl; [reflexivity |].
  rewrite insert_row_perm. now constructor.
Qed.

Lemma insert_row_sorted (r : A) (l : list A) :
  Sorted (key_le key) l -> Sorted (key_le key) (insert_row key r l).
Proof.
  induction 1 as [| h t Ht IH Hhd]; simpl.
  - repeat constructor.
  - destruct (key r <=? key h) eqn:E.
    + apply Z.leb_le in E. repeat constructor; assumption.
    + apply Z.leb_gt in E. constructor; [exact IH |].
      destruct Hhd as [| h' t' Hh']; simpl.
      * constructor. unfold key_le. lia.
      * destruct (key r <=? key h'); constructor; unfold key_le in *; lia.
Qed.

Lemma sort_index_sorted (l : list A) : Sorted (key_le key) (sort_index key l).
Proof.
  induction l as [| h t IH]; simpl; [constructor |].
  now apply insert_row_sorted.
Qed.

Lemma sort_index_of_sorted (l : list A) :
  Sorted (key_le key) l -> sort_index key l = l.
Proof.
  induction 1 as [| h t Ht IH Hhd]; simpl; [reflexivity |].
  rewrite IH. destruct Hhd as [| h' t' Hh']; simpl; [reflexivity |].
  unfold key_le in Hh'. apply Z.leb_le in Hh'. now rewrite Hh'.
Qed.

Lemma sorted_head_least (h : A) (t : list A) :
  Sorted (key_le key) (h :: t) -> forall r, In r t -> key h <= key r.
Proof.
  intros H. apply Sorted_StronglySorted in H.
  - inversion H as [| ? ? _ Hall]; subst. intros r Hr.
    rewrite Forall_forall in Hall. now apply Hall.
  - intros x y z Hxy Hyz. unfold key_le in *. lia.
Qed.

End SortFacts.

Lemma sorted_map {A B : Type} (key : A -> Z) (key' : B -> Z) (f : A -> B) (l : list A) :
  (forall r, key' (f r) = key r) ->
  Sorted (key_le key) l -> Sorted (key_le key') (map f l).
Proof.
  intros Hk. induction 1 as [| h t Ht IH Hhd]; simpl; constructor; [exact IH |].
  destruct Hhd as [| h' t' Hh']; simpl; constructor.
  unfold key_le in *. now rewrite !Hk.
Qed.

(** ** Centring on the point of least absolute force *)

Section Center.

Local Open Scope Qc_scope.

Lemma val_Fin (x : float) : isfinite x = true -> x = Fin (val x).
Proof. now destruct x. Qed.

Lemma idxmin_fold (s : series float) :
  idxmin s = option_map fst (fold_left keep_least s None).
Proof. reflexivity. Qed.

Section FirstLeast.

Context {B : Type} (lab : B -> Z) (w : B -> Qc).

Let row (r : B) : Z * float := (lab r, Fin (w r)).

Lemma first_least_exists (l : list B) :
  l <> [] ->
  exists l1 r l2,
    l = l1 ++ r :: l2 /\
    (forall c, In c l1 -> w r < w c) /\
    (forall c, In c l2 -> w r <= w c).
Proof.
  induction l as [| x l IH]; [contradiction |]. intros _.
  destruct l as [| y l].
  - exists [], x, []. repeat split; intros c [].
  - destruct IH as (l1 & r & l2 & Heq & H1 & H2); [discriminate |].
    destruct (Qclt_le_dec (w r) (w x)) as [Hlt | Hle].
    + exists (x :: l1), r, l2. repeat split.
      * simpl. now rewrite Heq.
      * intros c [<- | Hc]; [exact Hlt | now apply H1].
      * exact H2.
    + exists [], x, (y :: l). repeat split.
      * intros c [].
      * intros c Hc. rewrite Heq in Hc. apply in_app_or in Hc.
        destruct Hc as [Hc | [<- | Hc]].
        -- apply Qclt_le_weak. apply Qcle_lt_trans with (w r); auto.
        -- exact Hle.
        -- apply Qcle_trans with (w r); auto.
Qed.

Lemma keep_least_after (r : B) (l2 : list B) :
  (forall c, In c l2 -> w r <= w c) ->
  fold_left keep_least (map row l2) (Some (row r)) = Some (row r).
Proof.
  induction l2 as [| c l2 IH]; intros H; [reflexivity |].
  simpl. unfold keep_least at 2. simpl.
  assert (flt (Fin (w c)) (Fin (w r)) = false) as ->.
  { apply flt_Fin_false. apply H. now left. }
  apply IH. intros c' Hc'. apply H. now right.
Qed.

Lemma keep_least_before (r : B) (l1 : list B) :
  (forall c, In c l1 -> w r < w c) ->
  forall best : option B,
    (forall b, best = Some b -> w r < w b) ->
    exists best' : option B,
      fold_left keep_least (map row l1) (option_map row best) = option_map row best' /\
      (forall b, best' = Some b -> w r < w b).
Proof.
  induction l1 as [| c l1 IH]; intros H best Hbest.
  - exists best. now split.
  - simpl.
    assert (exists b1,
               keep_least (option_map row best) (row c)
               = option_map row (Some b1) /\ w r < w b1) as (b1 & -> & Hb1).
    { unfold keep_least. simpl. destruct best as [b |]; simpl.
      - destruct (flt (Fin (w c)) (Fin (w b))).
        + exists c. split; [reflexivity | apply H; now left].
        + exists b. split; [reflexivity | now apply Hbest].
      - exists c. split; [reflexivity | apply H; now left]. }
    apply IH.
    + intros c' Hc'. apply H. now right.
    + now intros b [= <-].
Qed.

Lemma idxmin_first_least (l1 l2 : list B) (r : B) :
  (forall c, In c l1 -> w r < w c) ->
  (forall c, In c l2 -> w r <= w c) ->
  idxmin (map row (l1 ++ r :: l2)) = Some (lab r).
Proof.
  intros H1 H2. rewrite idxmin_fold, map_app, fold_left_app. simpl.
  destruct (keep_least_before r l1 H1 None) as (best' & Hf & Hb); [discriminate |].
  simpl in Hf. rewrite Hf.
  assert (keep_least (option_map row best') (row r) = Some (row r)) as ->.
  { unfold keep_least. simpl. destruct best' as [b |]; simpl; [| reflexivity].
    assert (flt (Fin (w r)) (Fin (w b)) = true) as ->; [| reflexivity].
    apply flt_Fin. now apply Hb. }
  now rewrite keep_least_after.
Qed.

End FirstLeast.

Lemma loc_absent (df : curve) (t : Z) :
  ~ In t (map label df) -> loc df t = nil.
Proof.
  induction df as [| a df IH]; intros H; [reflexivity |].
  unfold loc in *. simpl in *.
  destruct (Z.eqb_spec (label a) t) as [E | E].
  - exfalso. apply H. now left.
  - apply IH. intros Hin. apply H. now right.
Qed.

Lemma loc_unique (df : curve) (r0 : sample) :
  NoDup (map label df) -> In r0 df -> loc df (label r0) = (r0 :: nil).
Proof.
  induction df as [| a df IH]; intros Hnd Hin; [contradiction |].
  simpl in Hnd. inversion Hnd as [| ? ? Hnotin Hnd']; subst.
  unfold loc in *. simpl.
  destruct Hin as [-> | Hin].
  - rewrite Z.eqb_refl. f_equal. now apply loc_absent.
  - destruct (Z.eqb_spec (label a) (label r0)) as [E | E].
    + exfalso. apply Hnotin. rewrite E. now apply in_map.
    + now apply IH.
Qed.

Lemma abs_force_row (df : curve) :
  Forall finite_sample df ->
  map (fun r => (label r, fabs (force r))) df =
  map (fun r => (label r, Fin (abs_force r))) df.
Proof.
  intros Hfin. apply map_ext_in. intros r Hr.
  rewrite Forall_forall in Hfin. destruct (Hfin r Hr) as [Hf _].
  unfold abs_force. now destruct (force r).
Qed.

Lemma origin_of_first_least (l1 l2 : curve) (r0 : sample) :
  Forall finite_sample (l1 ++ r0 :: l2) ->
  NoDup (map label (l1 ++ r0 :: l2)) ->
  (forall c, In c l1 -> abs_force r0 < abs_force c) ->
  (forall c, In c l2 -> abs_force r0 <= abs_force c) ->
  origin_of (l1 ++ r0 :: l2) = Some (displacement r0, force r0).
Proof.
  intros Hfin Hnd H1 H2. unfold origin_of.
  rewrite abs_force_row by assumption.
  rewrite (idxmin_first_least label abs_force l1 l2 r0 H1 H2).
  unfold loc_scalar. rewrite loc_unique; [reflexivity | assumption |].
  apply in_or_app. right. now left.
Qed.

Lemma shift_by_label (x0 y0 : float) (r : sample) :
  label (shift_by x0 y0 r) = label r.
Proof. reflexivity. Qed.

Lemma shift_by_finite (dx fy : Qc) (r : sample) :
  finite_sample r -> finite_sample (shift_by (Fin dx) (Fin fy) r).
Proof.
  intros [Hf Hd]. unfold finite_sample, shift_by. simpl.
  destruct (force r), (displacement r); try discriminate. now split.
Qed.

Lemma shift_by_force (dx fy : Qc) (r : sample) :
  finite_sample r ->
  val (force (shift_by (Fin dx) (Fin fy) r)) = val (force r) - fy.
Proof.
  intros [Hf _]. unfold shift_by. simpl. now destruct (force r).
Qed.

Lemma shift_by_zero (r : sample) :
  finite_sample r -> shift_by zero zero r = r.
Proof.
  intros [Hf Hd]. destruct r as [t f d]. unfold shift_by. simpl in *.
  destruct f as [| | | f]; try discriminate.
  destruct d as [| | | d]; try discriminate.
  unfold zero. rewrite !fsub_Fin. f_equal; f_equal; ring.
Qed.

Lemma Qcabs_pos_of_neq (x : Qc) : x <> 0 -> 0 < Qcabs x.
Proof.
  intros Hx. destruct (Qcle_lt_or_eq _ _ (Qcabs_nonneg x)) as [H | H]; [exact H |].
  exfalso. apply Hx. apply Qcabs_null. now symmetry.
Qed.

Lemma Qcabs_0 : Qcabs 0 = 0.
Proof. apply Qcabs_pos. apply Qcle_refl. Qed.

Lemma center_to_origin_eq (df : curve) (x0 y0 : float) :
  sort_index label df <> nil ->
  origin_of (sort_index label df) = Some (x0, y0) ->
  center_to_origin df = Some (map (shift_by x0 y0) (sort_index label df)).
Proof.
  intros Hne Horig. unfold center_to_origin.
  destruct (sort_index label df); [contradiction |]. now rewrite Horig.
Qed.

(** C7: on a non-empty curve of finite samples with distinct labels,
    [center_to_origin] returns the rows in the order of the index with the
    force and the displacement of one sample [r0] of least absolute force
    subtracted from every row; that sample is then at (0, 0), the offsets
    found on the centred curve are both zero, and centring that curve again
    returns it unchanged. *)
Theorem center_to_origin_idempotent (df : curve) :
  df <> [] -> Forall finite_sample df -> NoDup (map label df) ->
  exists (df1 : curve) (r0 : sample),
    center_to_origin df = Some df1 /\
    In r0 df /\
    (forall r, In r df -> fle (fabs (force r0)) (fabs (force r)) = true) /\
    df1 = map (fun r => mk_sample (label r)
                                  (fsub (force r) (force r0))
                                  (fsub (displacement r) (displacement r0)))
              (sort_index label df) /\
    In (mk_sample (label r0) zero zero) df1 /\
    (forall r1, In r1 df1 -> fle (fabs zero) (fabs (force r1)) = true) /\
    origin_of df1 = Some (zero, zero) /\
    center_to_origin df1 = Some df1.
Proof.
  intros Hne Hfin Hnd.
  pose proof (sort_index_perm label df) as Hperm.
  pose proof (sort_index_sorted label df) as Hsorted.
  set (s := sort_index label df) in *.
  assert (s <> []) as Hs.
  { intros E. rewrite E in Hperm. apply Permutation_nil in Hperm. contradiction. }
  assert (Forall finite_sample s) as Hsfin.
  { eapply Permutation_Forall; [symmetry; exact Hperm | exact Hfin]. }
  assert (NoDup (map label s)) as Hsnd.
  { eapply Permutation_NoDup; [| exact Hnd].
    apply Permutation_map. now symmetry. }
  destruct (first_least_exists abs_force s Hs) as (l1 & r0 & l2 & Hsplit & H1 & H2).
  assert (In r0 s) as Hin0.
  { rewrite Hsplit. apply in_or_app. right. now left. }
  assert (finite_sample r0) as Hr0.
  { rewrite Forall_forall in Hsfin. now apply Hsfin. }
  assert (origin_of s = Some (displacement r0, force r0)) as Horig.
  { rewrite Hsplit in *. now apply origin_of_first_least. }
  assert (forall r, In r s -> abs_force r0 <= abs_force r) as Hleast.
  { intros r Hr. rewrite Hsplit in Hr. apply in_app_or in Hr.
    destruct Hr as [Hr | [<- | Hr]].
    - apply Qclt_le_weak. now apply H1.
    - apply Qcle_refl.
    - now apply H2. }
  destruct Hr0 as [Hf0 Hd0].
  apply val_Fin in Hf0. apply val_Fin in Hd0.
  set (f0 := val (force r0)) in *. set (d0 := val (displacement r0)) in *.
  set (df1 := map (shift_by (Fin d0) (Fin f0)) s).
  assert (map label df1 = map label s) as Hlab.
  { unfold df1. rewrite map_map. reflexivity. }
  assert (Forall finite_sample df1) as Hfin1.
  { unfold df1. rewrite Forall_map. eapply Forall_impl; [| exact Hsfin].
    intros r Hr. now apply shift_by_finite. }
  assert (sort_index label df1 = df1) as Hsort1.
  { apply sort_index_of_sorted. unfold df1.
    apply sorted_map with (key := label); [reflexivity | exact Hsorted]. }
  assert (shift_by (Fin d0) (Fin f0) r0 = mk_sample (label r0) zero zero)
    as Himage.
  { unfold shift_by. rewrite Hd0, Hf0, !fsub_Fin.
    unfold zero. do 2 f_equal; ring. }
  assert (origin_of df1 = Some (zero, zero)) as Horig1.
  { unfold df1. rewrite Hsplit, map_app. simpl map.
    rewrite origin_of_first_least.
    - now rewrite Himage.
    - rewrite <- (map_cons (shift_by (Fin d0) (Fin f0))), <- map_app, <- Hsplit.
      exact Hfin1.
    - rewrite <- (map_cons (shift_by (Fin d0) (Fin f0))), <- map_app, <- Hsplit.
      fold df1. now rewrite Hlab.
    - intros c' Hc'. apply in_map_iff in Hc'. destruct Hc' as (c & <- & Hc).
      assert (finite_sample c) as Hcfin.
      { rewrite Forall_forall in Hsfin. apply Hsfin. rewrite Hsplit.
        apply in_or_app. now left. }
      unfold abs_force. rewrite !shift_by_force; try assumption.
      2:{ split; [now rewrite Hf0 | now rewrite Hd0]. }
      fold f0. replace (f0 - f0) with (Q2Qc 0) by ring. rewrite Qcabs_0.
      apply Qcabs_pos_of_neq. intros E.
      specialize (H1 c Hc). unfold abs_force in H1. fold f0 in H1.
      assert (val (force c) = f0) as E' by (rewrite <- (Qcplus_0_r f0), <- E; ring).
      rewrite E' in H1. now apply Qclt_not_le in H1; apply H1, Qcle_refl.
    - intros c' Hc'. apply in_map_iff in Hc'. destruct Hc' as (c & <- & Hc).
      unfold abs_force. rewrite (shift_by_force d0 f0 r0).
      2:{ split; [now rewrite Hf0 | now rewrite Hd0]. }
      fold f0. replace (f0 - f0) with (Q2Qc 0) by ring. rewrite Qcabs_0.
      apply Qcabs_nonneg. }
  exists df1, r0.
  split; [apply center_to_origin_eq; [exact Hs | rewrite <- Hd0, <- Hf0; exact Horig] |].
  split; [now apply (Permutation_in _ Hperm) |].
  split.
  { intros r Hr. apply (Permutation_in _ (Permutation_sym Hperm)) in Hr.
    specialize (Hleast r Hr). unfold abs_force in Hleast.
    assert (isfinite (force r) = true) as Hfr.
    { rewrite Forall_forall in Hsfin. now apply Hsfin. }
    apply val_Fin in Hfr. rewrite Hf0, Hfr. cbn [fabs].
    now apply fle_Fin. }
  split.
  { unfold df1. apply map_ext. intros r. unfold shift_by.
    now rewrite Hf0, Hd0. }
  split.
  { rewrite <- Himage. unfold df1. now apply in_map. }
  split.
  { intros r1 Hr1. rewrite Forall_forall in Hfin1.
    destruct (Hfin1 r1 Hr1) as [Hf1 _]. apply val_Fin in Hf1.
    rewrite Hf1. unfold zero. cbn [fabs]. apply fle_Fin.
    rewrite Qcabs_0. apply Qcabs_nonneg. }
  split; [exact Horig1 |].
  rewrite (center_to_origin_eq df1 zero zero); rewrite Hsort1.
  - apply f_equal. rewrite <- (map_id df1) at 2. apply map_ext_in. intros r1 Hr1.
    apply shift_by_zero. rewrite Forall_forall in Hfin1. now apply Hfin1.
  - unfold df1. intros E. apply map_eq_nil in E. contradiction.
  - exact Horig1.
Qed.

Lemma center_to_origin_idempotent_witness :
  exists (df1 : curve) (r0 : sample),
    center_to_origin preload = Some df1 /\
    In r0 preload /\
    (forall r, In r preload -> fle (fabs (force r0)) (fabs (force r)) = true) /\
    df1 = map (fun r => mk_sample (label r)
                                  (fsub (force r) (force r0))
                                  (fsub (displacement r) (displacement r0)))
              (sort_index label preload) /\
    In (mk_sample (label r0) zero zero) df1 /\
    (forall r1, In r1 df1 -> fle (fabs zero) (fabs (force r1)) = true) /\
    origin_of df1 = Some (zero, zero) /\
    center_to_origin df1 = Some df1.
Proof.
  apply (center_to_origin_idempotent preload).
  - discriminate.
  - repeat constructor.
  - repeat constructor; simpl; intuition discriminate.
Defined.

(** C7, against "every non-empty curve": with the label of the sample of
    least absolute force on two rows, [float(df.loc[i0, ...])] raises; and
    a sample of infinite force is sent to NaN, not to 0, after which a
    second centring finds no sample to take as the origin and raises. *)
Lemma center_to_origin_not_total :
  center_to_origin
    (mk_sample 10 (of_Z 1) (of_Z 2) :: mk_sample 10 (of_Z 5) (of_Z 7) :: nil)
  = None /\
  center_to_origin (mk_sample 10 PInf (of_Z 1) :: nil)
  = Some (mk_sample 10 NaN zero :: nil) /\
  center_to_origin (mk_sample 10 NaN zero :: nil) = None.
Proof.
  repeat split; vm_compute; reflexivity.
Qed.

Lemma center_to_origin_preload :
  center_to_origin preload = Some centred /\
  center_to_origin centred = Some centred.
Proof.
  split; vm_compute; repeat f_equal; apply Qc_is_canon; reflexivity.
Qed.

End Center.

(** ** State segments *)

Section Segments.

Local Open Scope Z_scope.

(** *** Lists indexed by [seq] *)

Lemma map_seq_chain {B : Type} (R : B -> B -> Prop) (f : nat -> B) (n : nat) :
  forall a : nat,
    (forall k, (a <= k)%nat -> (S k < a + n)%nat -> R (f k) (f (S k))) ->
    LocallySorted R (map f (seq a n)).
Proof.
  induction n as [| n IH]; intros a H; simpl; [constructor |].
  destruct n as [| n]; simpl; [constructor |].
  constructor.
  - apply (IH (S a)). intros k Hk1 Hk2. apply H; lia.
  - apply H; lia.
Qed.

Lemma map_seq_last {B : Type} (f : nat -> B) (n : nat) (d : B) :
  last (map f (seq 0 (S n))) d = f n.
Proof. rewrite seq_S, map_app. simpl. apply last_last. Qed.

Lemma map_seq_Forall {B : Type} (P : B -> Prop) (f : nat -> B) (n : nat) :
  (forall k, (k < n)%nat -> P (f k)) -> Forall P (map f (seq 0 n)).
Proof.
  intros H. apply Forall_forall. intros x Hx.
  apply in_map_iff in Hx. destruct Hx as (k & <- & Hk).
  apply in_seq in Hk. apply H. lia.
Qed.

(** *** Sorted labels *)

Lemma sorted_nth_le (l : list Z) :
  Sorted Z.le l ->
  forall i j : nat, (i <= j)%nat -> (j < length l)%nat -> nth i l 0 <= nth j l 0.
Proof.
  intros H. apply Sorted_StronglySorted in H; [| exact Z.le_trans].
  induction H as [| h t Ht IH Hall]; intros i j Hij Hj; [simpl in Hj; lia |].
  destruct i as [| i], j as [| j]; simpl in *; try lia.
  - rewrite Forall_forall in Hall. apply Hall. apply nth_In. lia.
  - apply IH; lia.
Qed.

Lemma sorted_labels {A : Type} (s : list (Z * A)) :
  Sorted (key_le fst) s -> Sorted Z.le (map fst s).
Proof.
  induction 1 as [| h t Ht IH Hhd]; simpl; constructor; [exact IH |].
  destruct Hhd as [| h' t' Hh']; simpl; constructor. exact Hh'.
Qed.

(** *** Change points *)

Lemma positions_from_bounds (change : list bool) :
  forall (i p : nat),
    In p (positions_from i change) -> (i <= p < i + length change)%nat.
Proof.
  induction change as [| c t IH]; intros i p Hp; [contradiction |].
  simpl in Hp. destruct c.
  - destruct Hp as [<- | Hp]; [simpl; lia |].
    apply IH in Hp. simpl. lia.
  - apply IH in Hp. simpl. lia.
Qed.

Lemma positions_from_increasing (change : list bool) :
  forall i : nat, StronglySorted lt (positions_from i change).
Proof.
  induction change as [| c t IH]; intros i; simpl; [constructor |].
  destruct c; [| apply IH].
  constructor; [apply IH |].
  apply Forall_forall. intros p Hp. apply positions_from_bounds in Hp. lia.
Qed.

Lemma increasing_nth (l : list nat) :
  StronglySorted lt l ->
  forall k : nat, (S k < length l)%nat -> (nth k l 0 < nth (S k) l 0)%nat.
Proof.
  induction 1 as [| h t Ht IH Hall]; intros k Hk; [simpl in Hk; lia |].
  destruct k as [| k]; simpl in *.
  - rewrite Forall_forall in Hall. apply Hall. apply nth_In. lia.
  - apply IH. lia.
Qed.

Lemma ne_shift_length (l : list Z) : length (ne_shift l) = length l.
Proof.
  destruct l as [| x t]; [reflexivity |]. simpl. f_equal.
  revert x. induction t as [| y t IH]; intros x; simpl; [reflexivity |].
  now rewrite IH.
Qed.

(** *** Segments of a sorted series *)

Lemma index_at_nth (s : series Z) (p : nat) :
  index_at s p = nth p (map fst s) 0.
Proof. unfold index_at. now rewrite <- (map_nth fst). Qed.

Lemma segments_of_contiguous (s : series Z) (t0 t1 : Z) :
  Sorted (key_le fst) s ->
  (forall r, In r s -> t0 <= fst r <= t1) ->
  In t0 (map fst s) ->
  contiguous t0 t1 (segments_of s t1).
Proof.
  intros Hsorted Hrange Hin0.
  destruct s as [| h t]; [contradiction |].
  assert (fst h = t0) as Hh.
  { assert (t0 <= fst h) by (apply Hrange; now left).
    simpl in Hin0. destruct Hin0 as [E | Hin]; [exact E |].
    apply in_map_iff in Hin. destruct Hin as (r & Hr & Hrin).
    pose proof (sorted_head_least fst h t Hsorted r Hrin). lia. }
  assert (forall p, (p < length (h :: t))%nat -> index_at (h :: t) p <= t1) as Hle1.
  { intros p Hp. unfold index_at. apply Hrange. now apply nth_In. }
  pose proof (sorted_labels _ Hsorted) as HL.
  unfold segments_of.
  set (change := ne_shift (map snd (h :: t))).
  assert (length change = length (h :: t)) as Hlen
    by (unfold change; now rewrite ne_shift_length, length_map).
  pose proof (positions_from_increasing change 0) as Hinc.
  pose proof (positions_from_bounds change 0) as Hbnd.
  set (idx := positions_from 0 change) in *.
  assert (exists idx', idx = 0%nat :: idx') as (idx' & Hidx)
    by (now exists (positions_from 1 (ne_shift_from (snd h) (map snd t)))).
  assert (forall k, (k < length idx)%nat -> (nth k idx 0 < length (h :: t))%nat) as Hpos.
  { intros k Hk. rewrite <- Hlen. apply (Hbnd (nth k idx 0%nat)). now apply nth_In. }
  set (f := fun k : nat => _).
  assert (length idx = S (length idx')) as Hn by (now rewrite Hidx).
  unfold contiguous. rewrite Hn. repeat split.
  - discriminate.
  - simpl. unfold seg_start. simpl. exact Hh.
  - rewrite map_seq_last. unfold f, seg_end. cbn [fst snd].
    rewrite Hn. now rewrite Nat.ltb_irrefl.
  - apply map_seq_Forall. intros k Hk. unfold f, seg_start, seg_end.
    cbn [fst snd]. rewrite <- Hn in Hk.
    destruct (S k <? length idx)%nat eqn:E.
    + apply Nat.ltb_lt in E. rewrite !index_at_nth.
      apply sorted_nth_le; [exact HL | |].
      * apply Nat.lt_le_incl. now apply increasing_nth.
      * rewrite length_map. now apply Hpos.
    + apply Hle1. apply Hpos. lia.
  - apply map_seq_chain. intros k _ Hk. unfold f, seg_start, seg_end.
    cbn [fst snd].
    assert ((S k <? length idx)%nat = true) as -> by (apply Nat.ltb_lt; lia).
    reflexivity.
Qed.

(** *** The series extended to the edges of the window *)

Lemma loc_set_labels {A : Type} (s : series A) (t : Z) (v : A) (x : Z) :
  In x (map fst (loc_set s t v)) <-> In x (map fst s) \/ x = t.
Proof.
  unfold loc_set. destruct (existsb (fun r => fst r =? t) s) eqn:E.
  - assert (map fst (map (fun r : Z * A => if fst r =? t then (fst r, v) else r) s)
            = map fst s) as ->.
    { rewrite map_map. apply map_ext. intros r. now destruct (fst r =? t). }
    split; [now left |]. intros [H | ->]; [exact H |].
    apply existsb_exists in E. destruct E as (r & Hr & Ht).
    apply Z.eqb_eq in Ht. rewrite <- Ht. now apply in_map.
  - rewrite map_app, in_app_iff. simpl. intuition.
Qed.

Lemma in_labels_range {A : Type} (s : series A) (t0 t1 : Z) :
  (forall r, In r s -> t0 <= fst r <= t1) <->
  (forall x, In x (map fst s) -> t0 <= x <= t1).
Proof.
  split.
  - intros H x Hx. apply in_map_iff in Hx. destruct Hx as (r & <- & Hr). auto.
  - intros H r Hr. apply H. now apply in_map.
Qed.

Lemma extend_to_edges_props (s : series Z) (t0 t1 : Z) :
  s <> [] ->
  (forall r, In r s -> t0 <= fst r <= t1) ->
  Sorted (key_le fst) (extend_to_edges s t0 t1) /\
  (forall r, In r (extend_to_edges s t0 t1) -> t0 <= fst r <= t1) /\
  In t0 (map fst (extend_to_edges s t0 t1)).
Proof.
  intros Hne Hrange. destruct s as [| first rest]; [contradiction |].
  unfold extend_to_edges.
  set (s0 := first :: rest) in *.
  assert (t0 <= fst first <= t1) as Hfirst by (apply Hrange; now left).
  set (s1 := if t0 <? fst first then loc_set s0 t0 (snd first) else s0).
  assert ((forall x, In x (map fst s1) -> t0 <= x <= t1) /\ In t0 (map fst s1))
    as [Hr1 Hin1].
  { unfold s1. destruct (t0 <? fst first) eqn:E.
    - split.
      + intros x Hx. apply loc_set_labels in Hx. destruct Hx as [Hx | ->]; [| lia].
        now apply (proj1 (in_labels_range s0 t0 t1)).
      + apply loc_set_labels. now right.
    - apply Z.ltb_ge in E. split.
      + now apply in_labels_range.
      + left. lia. }
  set (s2 := if fst (last s1 first) <? t1
             then loc_set s1 t1 (snd (last s1 first)) else s1).
  assert ((forall x, In x (map fst s2) -> t0 <= x <= t1) /\ In t0 (map fst s2))
    as [Hr2 Hin2].
  { unfold s2. destruct (fst (last s1 first) <? t1).
    - split.
      + intros x Hx. apply loc_set_labels in Hx. destruct Hx as [Hx | ->]; [auto | lia].
      + apply loc_set_labels. now left.
    - now split. }
  pose proof (sort_index_perm fst s2) as Hperm.
  split; [apply sort_index_sorted |]. split.
  - apply in_labels_range. intros x Hx. apply Hr2.
    eapply Permutation_in; [| exact Hx]. now apply Permutation_map.
  - eapply Permutation_in; [| exact Hin2]. apply Permutation_map. now symmetry.
Qed.

(** *** The window of the series *)

Lemma dropna_in {A : Type} (s : series (option A)) (t : Z) (v : A) :
  In (t, v) (dropna s) <-> In (t, Some v) s.
Proof.
  unfold dropna. rewrite in_flat_map. split.
  - intros ([t' [v' |]] & Hr & Hin); simpl in Hin; [| contradiction].
    destruct Hin as [[= <- <-] | []]. exact Hr.
  - intros H. exists (t, Some v). split; [exact H | now left].
Qed.

Lemma between_in {A : Type} (t0 t1 : Z) (s : series A) (r : Z * A) :
  In r (between t0 t1 s) <-> In r s /\ t0 <= fst r <= t1.
Proof.
  unfold between. rewrite filter_In, andb_true_iff, !Z.leb_le. tauto.
Qed.

Lemma ensure_utc_index_perm {A : Type} (key : A -> Z) (l : list A) :
  Permutation (ensure_utc_index key l) l.
Proof.
  destruct l as [| h t]; [reflexivity |]. apply sort_index_perm.
Qed.

Lemma window_rows (status_series : series (option Z)) (t0 t1 : Z) (r : Z * Z) :
  In r (between t0 t1 (ensure_utc_index fst (dropna status_series))) <->
  in_window status_series t0 t1 (fst r) (snd r).
Proof.
  rewrite between_in. unfold in_window. destruct r as [t v]. simpl.
  rewrite <- dropna_in. split; intros [H1 H2]; (split; [| exact H2]).
  - eapply Permutation_in; [apply ensure_utc_index_perm | exact H1].
  - eapply Permutation_in; [symmetry; apply ensure_utc_index_perm | exact H1].
Qed.

Lemma build_state_segments_window (status_series : series (option Z)) (t0 t1 : Z) :
  build_state_segments status_series t0 t1 =
  match between t0 t1 (ensure_utc_index fst (dropna status_series)) with
  | [] => []
  | s => segments_of (extend_to_edges s t0 t1) t1
  end.
Proof.
  unfold build_state_segments.
  destruct status_series as [| r0 rest]; [reflexivity |].
  destruct (dropna (r0 :: rest)) as [| r1 rest1]; [reflexivity |].
  now destruct (between t0 t1 _).
Qed.

(** C5: when some sample of the series is not missing and lies in the
    window [t0, t1], the segments are contiguous and exhaustive: the first
    starts at [t0], the last ends at [t1], they are in chronological order
    (none ends before it starts) and each ends where the next starts. *)
Theorem build_state_segments_contiguous
  (status_series : series (option Z)) (t0 t1 : Z) :
  (exists t v, in_window status_series t0 t1 t v) ->
  contiguous t0 t1 (build_state_segments status_series t0 t1).
Proof.
  intros (t & v & Hw). rewrite build_state_segments_window.
  apply (window_rows status_series t0 t1 (t, v)) in Hw.
  set (s := between t0 t1 _) in *.
  assert (forall r, In r s -> t0 <= fst r <= t1) as Hrange
    by (intros r Hr; now apply between_in in Hr).
  destruct s as [| first rest] eqn:Es; [contradiction |]. rewrite <- Es in *.
  assert (s <> []) as Hne by (rewrite Es; discriminate).
  destruct (extend_to_edges_props s t0 t1 Hne Hrange) as (Hsorted & Hr & Hin).
  now apply segments_of_contiguous.
Qed.

Lemma build_state_segments_empty
  (status_series : series (option Z)) (t0 t1 : Z) :
  (forall t v, ~ in_window status_series t0 t1 t v) ->
  build_state_segments status_series t0 t1 = [].
Proof.
  intros H. rewrite build_state_segments_window.
  destruct (between t0 t1 _) as [| [t v] rest] eqn:E; [reflexivity |].
  exfalso. apply (H t v).
  apply (window_rows status_series t0 t1 (t, v)). rewrite E. now left.
Qed.

Lemma build_state_segments_contiguous_witness :
  contiguous 0 10 (build_state_segments gappy 0 10).
Proof.
  apply build_state_segments_contiguous.
  exists 5, 1. split; [now left | lia].
Defined.

Lemma build_state_segments_gappy :
  build_state_segments gappy 0 10 = [(0, 8, 1); (8, 10, 2); (10, 10, 1)] /\
  build_state_segments gappy 6 7 = [].
Proof. split; reflexivity. Qed.

End Segments.

(** ** Groups of commands *)

Section Groups.

Local Open Scope Z_scope.

Lemma cumsum_from_length (flags : list bool) :
  forall acc, length (cumsum_from acc flags) = length flags.
Proof.
  induction flags as [| b t IH]; intros acc; simpl; [reflexivity |].
  now rewrite IH.
Qed.

Lemma cumsum_from_step (flags : list bool) :
  forall (acc : Z) (k : nat),
    (S k < length flags)%nat ->
    nth (S k) (cumsum_from acc flags) 0 =
    nth k (cumsum_from acc flags) 0 + bump (nth (S k) flags false).
Proof.
  induction flags as [| b t IH]; intros acc k Hk; [simpl in Hk; lia |].
  simpl in Hk. destruct k as [| k].
  - destruct t as [| b' t]; [simpl in Hk; lia |]. reflexivity.
  - cbn [cumsum_from nth]. apply IH. lia.
Qed.

Lemma gap_flags_from_length (index : list Z) (gap : Z) :
  forall prev, length (gap_flags_from prev index gap) = length index.
Proof.
  induction index as [| x t IH]; intros prev; simpl; [reflexivity |].
  now rewrite IH.
Qed.

Lemma gap_flags_from_nth (index : list Z) (gap : Z) :
  forall (prev : Z) (k : nat),
    (k < length index)%nat ->
    nth k (gap_flags_from prev index gap) false =
    (gap <? nth k index 0 - nth k (prev :: index) 0).
Proof.
  induction index as [| x t IH]; intros prev k Hk; [simpl in Hk; lia |].
  destruct k as [| k]; [reflexivity |].
  simpl in Hk. cbn [gap_flags_from nth]. rewrite IH by lia. reflexivity.
Qed.

Lemma group_by_gaps_length (index : list Z) (gap : Z) :
  length (group_by_gaps index gap) = length index.
Proof.
  destruct index as [| x t]; [reflexivity |].
  unfold group_by_gaps. rewrite cumsum_from_length. simpl.
  now rewrite gap_flags_from_length.
Qed.

Lemma group_by_gaps_step (index : list Z) (gap : Z) (k : nat) :
  (S k < length index)%nat ->
  nth (S k) (group_by_gaps index gap) 0 =
  nth k (group_by_gaps index gap) 0
  + bump (gap <? nth (S k) index 0 - nth k index 0).
Proof.
  intros Hk. destruct index as [| x t]; [simpl in Hk; lia |].
  unfold group_by_gaps. rewrite cumsum_from_step.
  - f_equal. f_equal. simpl in Hk. cbn [gap_flags nth].
    rewrite gap_flags_from_nth by lia. reflexivity.
  - simpl. rewrite gap_flags_from_length. simpl in Hk. lia.
Qed.

Lemma group_by_gaps_between (index : list Z) (gap : Z) (i : nat) :
  forall d : nat,
    (i + d < length index)%nat ->
    nth i (group_by_gaps index gap) 0 <= nth (i + d) (group_by_gaps index gap) 0 /\
    (nth i (group_by_gaps index gap) 0 = nth (i + d) (group_by_gaps index gap) 0 <->
     forall k, (i <= k < i + d)%nat ->
               nth (S k) index 0 - nth k index 0 <= gap).
Proof.
  induction d as [| d IH]; intros Hd.
  - rewrite Nat.add_0_r. split; [lia |]. split; [intros _ k Hk; lia | reflexivity].
  - destruct IH as [Hle Hiff]; [lia |].
    replace (i + S d)%nat with (S (i + d)) by lia.
    rewrite group_by_gaps_step by lia.
    destruct (gap <? nth (S (i + d)) index 0 - nth (i + d) index 0) eqn:E; simpl.
    + apply Z.ltb_lt in E. split; [lia |]. split; [lia |].
      intros H. specialize (H (i + d)%nat). lia.
    + apply Z.ltb_ge in E. split; [lia |]. rewrite Z.add_0_r, Hiff. split.
      * intros H k Hk. destruct (Nat.eq_dec k (i + d)) as [-> | Hne]; [exact E |].
        apply H. lia.
      * intros H k Hk. apply H. lia.
Qed.

(** X1: [group_by_gaps] numbers the rows from 0; the numbers never
    decrease along the index, each row takes the number of the previous one,
    plus one when the step between them exceeds the gap, and two rows share
    a number exactly when no step between them exceeds the gap. *)
Theorem group_by_gaps_spec (index : list Z) (gap : Z) :
  length (group_by_gaps index gap) = length index /\
  hd 0 (group_by_gaps index gap) = 0 /\
  (forall k : nat,
      (S k < length index)%nat ->
      nth (S k) (group_by_gaps index gap) 0 =
      nth k (group_by_gaps index gap) 0
      + (if gap <? nth (S k) index 0 - nth k index 0 then 1 else 0)) /\
  (forall i j : nat,
      (i <= j < length index)%nat ->
      nth i (group_by_gaps index gap) 0 <= nth j (group_by_gaps index gap) 0 /\
      (nth i (group_by_gaps index gap) 0 = nth j (group_by_gaps index gap) 0 <->
       forall k, (i <= k < j)%nat ->
                 nth (S k) index 0 - nth k index 0 <= gap)).
Proof.
  split; [apply group_by_gaps_length |]. split; [now destruct index |].
  split; [intros k Hk; now apply group_by_gaps_step |].
  intros i j Hij. replace j with (i + (j - i))%nat by lia.
  apply group_by_gaps_between. lia.
Qed.

(** The bursts of [bursts]: rows 0 to 2, rows 3 and 4, row 5. *)
Lemma group_by_gaps_spec_witness :
  group_by_gaps bursts three_minutes = [0; 0; 0; 1; 1; 2] /\
  (nth 3 (group_by_gaps bursts three_minutes) 0 =
   nth 4 (group_by_gaps bursts three_minutes) 0 <->
   forall k, (3 <= k < 4)%nat -> nth (S k) bursts 0 - nth k bursts 0 <= three_minutes).
Proof.
  split; [reflexivity |].
  apply (proj2 (proj2 (proj2 (group_by_gaps_spec bursts three_minutes))) 3%nat 4%nat).
  simpl. lia.
Defined.

End Groups.

(** ** More on the chunks of a date range *)

Section ChunkBounds.

Local Open Scope Z_scope.

Lemma chunk_loop_bounds (end_ delta overlap : Z) :
  0 <= overlap < delta ->
  forall (n : nat) (cs : Z) (l : list (Z * Z)),
    chunk_loop n cs end_ delta overlap = Some l ->
    Forall (fun c => cs <= fst c < snd c /\ snd c <= end_ /\
                     snd c - fst c <= delta) l /\
    Forall (fun c => snd c - fst c = delta) (removelast l) /\
    (end_ <= cs -> l = []).
Proof.
  intros Hov. induction n as [| n IH]; intros cs l H; [discriminate |].
  simpl in H. destruct (cs <? end_) eqn:Ecs.
  - apply Z.ltb_lt in Ecs.
    destruct (Z.min (cs + delta) end_ >=? end_) eqn:E.
    + injection H as <-. simpl. repeat split; try constructor; simpl; try lia.
      constructor.
    + rewrite Z.geb_leb in E. apply Z.leb_gt in E.
      assert (Z.min (cs + delta) end_ = cs + delta) as Hmin by lia.
      rewrite Hmin in *.
      destruct (chunk_loop n (cs + delta - overlap) end_ delta overlap)
        as [l' |] eqn:El; [| discriminate].
      injection H as <-. destruct (IH _ _ El) as (Hall & Hfull & Hnil).
      assert (l' <> []) as Hne.
      { destruct n as [| n]; [discriminate |]. simpl in El.
        assert ((cs + delta - overlap <? end_) = true) as Hlt
          by (apply Z.ltb_lt; lia).
        rewrite Hlt in El.
        destruct (Z.min (cs + delta - overlap + delta) end_ >=? end_);
          [now injection El as <- |].
        destruct (chunk_loop n _ end_ delta overlap); [| discriminate].
        now injection El as <-. }
      repeat split.
      * constructor; [simpl; lia |].
        eapply Forall_impl; [| exact Hall]. simpl. intros c Hc. lia.
      * destruct l' as [| c l']; [contradiction |].
        cbn [removelast]. constructor; [simpl; lia | exact Hfull].
      * intros Hle. lia.
  - apply Z.ltb_ge in Ecs. injection H as <-. repeat split; constructor.
Qed.

(** X2: whatever the fuel, the chunks that [chunk_ranges_utc] yields for
    [days > 0] and [overlap_hours >= 0] are non-empty intervals inside
    [start, end_], none longer than [days] days and all but the last exactly
    that long; with [end_ <= start] there is no chunk. *)
Theorem chunk_ranges_utc_bounds
  (fuel : nat) (start end_ days overlap_hours : Z) (chunks : list (Z * Z)) :
  0 < days -> 0 <= overlap_hours ->
  chunk_ranges_utc fuel start end_ days overlap_hours = Some chunks ->
  Forall (fun c => start <= fst c < snd c /\ snd c <= end_ /\
                   snd c - fst c <= days * NS_PER_DAY) chunks /\
  Forall (fun c => snd c - fst c = days * NS_PER_DAY) (removelast chunks) /\
  (end_ <= start -> chunks = []).
Proof.
  intros Hd Ho H. unfold chunk_ranges_utc in H.
  apply chunk_loop_bounds in H; [exact H |].
  unfold forced_overlap, NS_PER_DAY, NS_PER_HOUR.
  destruct (_ >=? _) eqn:E; [lia |].
  rewrite Z.geb_leb in E. apply Z.leb_gt in E. lia.
Qed.

Lemma chunk_ranges_utc_bounds_witness :
  Forall (fun c => 0 <= fst c < snd c /\ snd c <= 5 * NS_PER_DAY /\
                   snd c - fst c <= 2 * NS_PER_DAY)
    [(0, 2 * NS_PER_DAY); (36 * NS_PER_HOUR, 84 * NS_PER_HOUR);
     (72 * NS_PER_HOUR, 5 * NS_PER_DAY)] /\
  Forall (fun c => snd c - fst c = 2 * NS_PER_DAY)
    (removelast [(0, 2 * NS_PER_DAY); (36 * NS_PER_HOUR, 84 * NS_PER_HOUR);
                 (72 * NS_PER_HOUR, 5 * NS_PER_DAY)]) /\
  (5 * NS_PER_DAY <= 0 ->
   [(0, 2 * NS_PER_DAY); (36 * NS_PER_HOUR, 84 * NS_PER_HOUR);
    (72 * NS_PER_HOUR, 5 * NS_PER_DAY)] = []).
Proof.
  apply (chunk_ranges_utc_bounds 4 0 (5 * NS_PER_DAY) 2 12); [lia | lia | reflexivity].
Defined.

Lemma chunk_loop_stalls (end_ : Z) (n : nat) :
  forall cs : Z, cs < end_ -> chunk_loop n cs end_ 0 0 = None.
Proof.
  induction n as [| n IH]; intros cs Hcs; [reflexivity |].
  simpl. apply Z.ltb_lt in Hcs as Hb. rewrite Hb.
  rewrite Z.add_0_r, Z.sub_0_r.
  assert (Z.min cs end_ = cs) as -> by lia.
  assert ((cs >=? end_) = false) as -> by (rewrite Z.geb_leb; apply Z.leb_gt; lia).
  now rewrite IH.
Qed.

(** X3: with [days = 0] and [overlap_hours >= 0] the loop of
    [chunk_ranges_utc] makes no progress on a non-empty range: no amount of
    fuel lets it return. *)
Theorem chunk_ranges_utc_zero_days (fuel : nat) (start end_ overlap_hours : Z) :
  start < end_ -> 0 <= overlap_hours ->
  chunk_ranges_utc fuel start end_ 0 overlap_hours = None.
Proof.
  intros Hse Ho. unfold chunk_ranges_utc, forced_overlap.
  assert ((overlap_hours * NS_PER_HOUR >=? 0 * NS_PER_DAY) = true) as ->.
  { rewrite Z.geb_leb. apply Z.leb_le. unfold NS_PER_DAY, NS_PER_HOUR. lia. }
  now apply chunk_loop_stalls.
Qed.

Lemma chunk_ranges_utc_zero_days_witness :
  chunk_ranges_utc 1000 0 NS_PER_DAY 0 2 = None.
Proof.
  apply (chunk_ranges_utc_zero_days 1000 0 NS_PER_DAY 2);
    unfold NS_PER_DAY, NS_PER_HOUR; lia.
Defined.

End ChunkBounds.

(** ** The index in order *)

Section IndexOrder.

Local Open Scope Z_scope.

Context {A : Type} (key : A -> Z).

Lemma same_key_same_row (l : list A) (a b : A) :
  NoDup (map key l) -> In a l -> In b l -> key a = key b -> a = b.
Proof.
  induction l as [| h t IH]; intros Hnd Ha Hb Hk; [contradiction |].
  simpl in Hnd. inversion Hnd as [| ? ? Hnotin Hnd']; subst.
  destruct Ha as [-> | Ha], Hb as [-> | Hb].
  - reflexivity.
  - exfalso. apply Hnotin. rewrite Hk. now apply in_map.
  - exfalso. apply Hnotin. rewrite <- Hk. now apply in_map.
  - now apply IH.
Qed.

Lemma sorted_perm_unique (l : list A) :
  forall l' : list A,
    Sorted (key_le key) l -> Sorted (key_le key) l' ->
    Permutation l l' -> NoDup (map key l) -> l = l'.
Proof.
  induction l as [| h t IH]; intros l' Hs Hs' Hp Hnd.
  - apply Permutation_nil in Hp. now subst.
  - destruct l' as [| h' t'].
    + symmetry in Hp. apply Permutation_nil in Hp. discriminate.
    + assert (h = h') as <-.
      { assert (In h' (h :: t)) as Hin'
          by (eapply Permutation_in; [symmetry; exact Hp | now left]).
        assert (In h (h' :: t')) as Hin
          by (eapply Permutation_in; [exact Hp | now left]).
        apply (same_key_same_row (h :: t)); try assumption; [now left |].
        destruct Hin' as [E | Hin']; [now subst |].
        destruct Hin as [E | Hin]; [now subst |].
        pose proof (sorted_head_least key h t Hs h' Hin').
        pose proof (sorted_head_least key h' t' Hs' h Hin). lia. }
      f_equal. apply IH.
      * now inversion Hs.
      * now inversion Hs'.
      * now apply Permutation_cons_inv with (a := h).
      * simpl in Hnd. now inversion Hnd.
Qed.

(** X4: [ensure_utc_index] returns the rows of the frame in the order of
    their labels; it leaves a frame already in order as it is, so applying
    it twice is applying it once; and when the labels are distinct the
    result does not depend on the order in which the rows came. *)
Theorem ensure_utc_index_spec (df : list A) :
  Sorted (key_le key) (ensure_utc_index key df) /\
  Permutation (ensure_utc_index key df) df /\
  (Sorted (key_le key) df -> ensure_utc_index key df = df) /\
  ensure_utc_index key (ensure_utc_index key df) = ensure_utc_index key df /\
  (forall df' : list A,
      Permutation df df' -> NoDup (map key df) ->
      ensure_utc_index key df' = ensure_utc_index key df).
Proof.
  assert (forall l, Sorted (key_le key) (ensure_utc_index key l)) as Hsorted.
  { intros [| h t]; [constructor | apply sort_index_sorted]. }
  assert (forall l, Sorted (key_le key) l -> ensure_utc_index key l = l) as Hid.
  { intros [| h t] H; [reflexivity | now apply sort_index_of_sorted]. }
  split; [apply Hsorted |]. split; [apply ensure_utc_index_perm |].
  split; [apply Hid |]. split; [apply Hid, Hsorted |].
  intros df' Hp Hnd. symmetry. apply sorted_perm_unique; try apply Hsorted.
  - rewrite !ensure_utc_index_perm. exact Hp.
  - eapply Permutation_NoDup; [| exact Hnd].
    apply Permutation_map. symmetry. apply ensure_utc_index_perm.
Qed.

End IndexOrder.

Lemma ensure_utc_index_spec_witness :
  ensure_utc_index fst [(3, 7); (1, 8); (2, 9)]%Z = [(1, 8); (2, 9); (3, 7)]%Z /\
  ensure_utc_index fst [(2, 9); (3, 7); (1, 8)]%Z
  = ensure_utc_index fst [(3, 7); (1, 8); (2, 9)]%Z.
Proof.
  split; [reflexivity |].
  apply (proj2 (proj2 (proj2 (proj2
           (ensure_utc_index_spec fst [(3, 7); (1, 8); (2, 9)]%Z))))).
  - apply Permutation_sym, Permutation_cons_append.
  - repeat constructor; simpl; intuition discriminate.
Defined.

(** ** More on the state segments *)

Section SegmentStates.

Local Open Scope Z_scope.

Lemma map_nth_seq {B : Type} (l : list B) (d : B) :
  map (fun k => nth k l d) (seq 0 (length l)) = l.
Proof.
  induction l as [| x t IH]; [reflexivity |].
  simpl. f_equal. rewrite <- seq_shift, map_map. exact IH.
Qed.

Lemma iloc_nth (s : series Z) (p : nat) : iloc s p = nth p (map snd s) 0.
Proof. unfold iloc. now rewrite <- (map_nth snd). Qed.

Lemma positions_states (t : list Z) :
  forall (pre : list Z) (prev : Z),
    map (fun p => nth p (pre ++ t) 0)
        (positions_from (length pre) (ne_shift_from prev t))
    = compress_from prev t.
Proof.
  induction t as [| x t IH]; intros pre prev; [reflexivity |].
  cbn [ne_shift_from positions_from compress_from].
  specialize (IH (pre ++ [x]) x).
  rewrite <- app_assoc, length_app, Nat.add_1_r in IH. simpl app in IH.
  destruct (x =? prev); cbn [negb]; [exact IH |].
  cbn [map]. rewrite IH. f_equal.
  rewrite app_nth2 by lia. now rewrite Nat.sub_diag.
Qed.

Lemma segments_of_states (s : series Z) (t1 : Z) :
  map seg_state (segments_of s t1) = compress (map snd s).
Proof.
  unfold segments_of. rewrite map_map. unfold seg_state. cbn [snd].
  set (idx := positions_from 0 (ne_shift (map snd s))).
  transitivity (map (iloc s) idx).
  - replace (map (iloc s) idx)
      with (map (iloc s) (map (fun k => nth k idx 0%nat) (seq 0 (length idx))))
      by (now rewrite map_nth_seq).
    now rewrite map_map.
  - unfold idx. destruct s as [| [t v] rest]; [reflexivity |].
    cbn [map snd ne_shift positions_from compress].
    apply f_equal2; [reflexivity |].
    rewrite <- (positions_states (map snd rest) [v] v).
    apply map_ext. intros p. apply iloc_nth.
Qed.

Lemma compress_from_in (l : list Z) :
  forall (prev x : Z), In x (compress_from prev l) -> In x l.
Proof.
  induction l as [| y t IH]; intros prev x H; [contradiction |].
  simpl in H. destruct (y =? prev).
  - right. now apply IH with (prev := y).
  - destruct H as [-> | H]; [now left | right; now apply IH with (prev := y)].
Qed.

Lemma compress_in (l : list Z) (x : Z) : In x (compress l) -> In x l.
Proof.
  destruct l as [| y t]; [contradiction |].
  intros [-> | H]; [now left | right; now apply compress_from_in in H].
Qed.

Lemma compress_from_distinct (l : list Z) :
  forall prev : Z,
    LocallySorted (fun a b => a <> b) (prev :: compress_from prev l).
Proof.
  induction l as [| y t IH]; intros prev; [constructor |].
  simpl. destruct (Z.eqb_spec y prev) as [-> | Hne].
  - apply IH.
  - constructor; [apply IH | congruence].
Qed.

Lemma compress_distinct (l : list Z) :
  LocallySorted (fun a b => a <> b) (compress l).
Proof.
  destruct l as [| x t]; [constructor | apply compress_from_distinct].
Qed.

Lemma chain_of_map {B C : Type} (f : B -> C) (R : C -> C -> Prop) (l : list B) :
  LocallySorted R (map f l) -> LocallySorted (fun a b => R (f a) (f b)) l.
Proof.
  induction l as [| a [| b t] IH]; intros H; try constructor.
  - apply IH. now inversion H.
  - now inversion H.
Qed.

Lemma loc_set_values {A : Type} (s : series A) (t : Z) (v x : A) :
  In x (map snd (loc_set s t v)) -> In x (map snd s) \/ x = v.
Proof.
  unfold loc_set. destruct (existsb _ s).
  - rewrite map_map, in_map_iff. intros (r & Hx & Hr).
    destruct (fst r =? t); simpl in Hx; [now right |].
    left. subst x. now apply in_map.
  - rewrite map_app, in_app_iff. simpl. intuition.
Qed.

Lemma last_in {B : Type} (l : list B) (d : B) : l <> [] -> In (last l d) l.
Proof.
  induction l as [| x [| y t] IH]; intros H; [contradiction | now left |].
  right. apply IH. discriminate.
Qed.

Lemma extend_to_edges_values (s : series Z) (t0 t1 x : Z) :
  In x (map snd (extend_to_edges s t0 t1)) -> In x (map snd s).
Proof.
  destruct s as [| first rest]; [trivial |].
  unfold extend_to_edges. set (s0 := first :: rest).
  set (s1 := if t0 <? fst first then loc_set s0 t0 (snd first) else s0).
  assert (forall y, In y (map snd s1) -> In y (map snd s0)) as H1.
  { unfold s1. destruct (t0 <? fst first); [| trivial].
    intros y Hy. apply loc_set_values in Hy. destruct Hy as [Hy | ->]; [exact Hy |].
    now left. }
  assert (s1 <> []) as Hne1.
  { unfold s1, loc_set. destruct (t0 <? fst first); [| discriminate].
    destruct (existsb _ s0); [discriminate |]. now destruct s0. }
  intros Hx.
  assert (In x (map snd (if fst (last s1 first) <? t1
                         then loc_set s1 t1 (snd (last s1 first)) else s1))) as H2.
  { eapply Permutation_in; [| exact Hx].
    apply Permutation_map, sort_index_perm. }
  apply H1. destruct (fst (last s1 first) <? t1); [| exact H2].
  apply loc_set_values in H2. destruct H2 as [H2 | ->]; [exact H2 |].
  apply in_map. now apply last_in.
Qed.

Lemma contiguous_cons (t0 t1 : Z) (g g' : segment) (rest : list segment) :
  contiguous t0 t1 (g :: g' :: rest) ->
  seg_start g = t0 /\ seg_start g <= seg_end g /\
  contiguous (seg_end g) t1 (g' :: rest).
Proof.
  intros (_ & Hhd & Hlast & Hall & Hch).
  inversion Hall as [| ? ? Hg Hall']; subst.
  inversion Hch as [| | ? ? ? Hch' Hgg']; subst.
  repeat split; try assumption; [discriminate | now symmetry].
Qed.

Lemma contiguous_inside (segs : list segment) :
  forall t0 t1 : Z,
    contiguous t0 t1 segs ->
    Forall (fun g => t0 <= seg_start g /\ seg_start g <= seg_end g /\
                     seg_end g <= t1) segs /\
    total_duration segs = t1 - t0.
Proof.
  induction segs as [| g [| g' rest] IH]; intros t0 t1 H.
  - now destruct H.
  - destruct H as (_ & Hhd & Hlast & Hall & _). simpl in *.
    inversion Hall; subst. unfold duration. split; [| lia].
    constructor; [lia | constructor].
  - apply contiguous_cons in H. destruct H as (Hs & Hle & Hc).
    destruct (IH _ _ Hc) as [Hall Hsum]. split.
    + inversion Hall as [| ? ? Hg' _]; subst.
      constructor; [lia |].
      eapply Forall_impl; [| exact Hall]. simpl. intros c Hc'. lia.
    + change (total_duration (g :: g' :: rest))
        with (duration g + total_duration (g' :: rest)).
      rewrite Hsum. unfold duration. lia.
Qed.

Lemma build_state_segments_samples (status_series : series (option Z)) (t0 t1 : Z) :
  build_state_segments status_series t0 t1 =
  match window_samples status_series t0 t1 with
  | [] => []
  | s => segments_of (extend_to_edges s t0 t1) t1
  end.
Proof. apply build_state_segments_window. Qed.

Lemma build_state_segments_chain (status_series : series (option Z)) (t0 t1 : Z) :
  (exists t v, in_window status_series t0 t1 t v) ->
  contiguous t0 t1 (build_state_segments status_series t0 t1).
Proof.
  intros (t & v & Hw). rewrite build_state_segments_samples.
  apply (window_rows status_series t0 t1 (t, v)) in Hw.
  fold (window_samples status_series t0 t1) in Hw.
  set (s := window_samples status_series t0 t1) in *.
  assert (forall r, In r s -> t0 <= fst r <= t1) as Hrange
    by (intros r Hr; now apply between_in in Hr).
  destruct s as [| first rest] eqn:Es; [contradiction |]. rewrite <- Es in *.
  assert (s <> []) as Hne by (rewrite Es; discriminate).
  destruct (extend_to_edges_props s t0 t1 Hne Hrange) as (Hsorted & Hr & Hin).
  now apply segments_of_contiguous.
Qed.

Lemma segment_state_observed
  (status_series : series (option Z)) (t0 t1 : Z) (g : segment) :
  In g (build_state_segments status_series t0 t1) ->
  exists t, in_window status_series t0 t1 t (seg_state g).
Proof.
  rewrite build_state_segments_samples.
  destruct (window_samples status_series t0 t1) as [| r rest] eqn:E;
    [contradiction |].
  rewrite <- E. intros Hg.
  assert (In (seg_state g) (map snd (window_samples status_series t0 t1))) as Hin.
  { apply extend_to_edges_values with (t0 := t0) (t1 := t1).
    apply compress_in. rewrite <- segments_of_states with (t1 := t1).
    now apply in_map. }
  apply in_map_iff in Hin. destruct Hin as ([t v] & Hv & Hr). simpl in Hv. subst v.
  exists t. now apply (window_rows status_series t0 t1 (t, seg_state g)).
Qed.

(** X5: [build_state_segments] returns the empty list exactly when no
    non-missing sample of the series lies in the window. *)
Theorem build_state_segments_nil (status_series : series (option Z)) (t0 t1 : Z) :
  build_state_segments status_series t0 t1 = [] <->
  forall t v, ~ in_window status_series t0 t1 t v.
Proof.
  split; [| apply build_state_segments_empty].
  intros E t v Hw.
  assert (contiguous t0 t1 (build_state_segments status_series t0 t1)) as Hc
    by (apply build_state_segments_chain; now exists t, v).
  rewrite E in Hc. now destruct Hc.
Qed.

(** X6: when a sample lies in the window, every segment lies inside
    [t0, t1] and the durations of the segments add up to [t1 - t0]. *)
Theorem build_state_segments_durations
  (status_series : series (option Z)) (t0 t1 : Z) :
  (exists t v, in_window status_series t0 t1 t v) ->
  Forall (fun g => t0 <= seg_start g /\ seg_start g <= seg_end g /\
                   seg_end g <= t1)
    (build_state_segments status_series t0 t1) /\
  total_duration (build_state_segments status_series t0 t1) = t1 - t0.
Proof.
  intros H. apply contiguous_inside.
  now apply build_state_segments_chain.
Qed.

Lemma build_state_segments_durations_witness :
  Forall (fun g => 0 <= seg_start g /\ seg_start g <= seg_end g /\
                   seg_end g <= 10)
    (build_state_segments gappy 0 10) /\
  total_duration (build_state_segments gappy 0 10) = 10 - 0.
Proof.
  apply (build_state_segments_durations gappy 0 10).
  exists 5, 1. split; [now left | lia].
Defined.

(** X7: two consecutive segments never carry the same state, and the
    states of the segments, in order, are the states of the extended series
    without their consecutive repetitions. *)
Theorem build_state_segments_states_change
  (status_series : series (option Z)) (t0 t1 : Z) :
  LocallySorted (fun g1 g2 => seg_state g1 <> seg_state g2)
    (build_state_segments status_series t0 t1) /\
  map seg_state (build_state_segments status_series t0 t1) =
  match window_samples status_series t0 t1 with
  | [] => []
  | s => compress (map snd (extend_to_edges s t0 t1))
  end.
Proof.
  rewrite build_state_segments_samples.
  destruct (window_samples status_series t0 t1) as [| r rest].
  - split; [constructor | reflexivity].
  - split; [| apply segments_of_states].
    apply (chain_of_map seg_state (fun a b => a <> b)).
    rewrite segments_of_states. apply compress_distinct.
Qed.

(** X8: the state of every segment is the state of a non-missing sample of
    the series that lies in the window. *)
Theorem build_state_segments_states_observed
  (status_series : series (option Z)) (t0 t1 : Z) :
  Forall (fun g => exists t, in_window status_series t0 t1 t (seg_state g))
    (build_state_segments status_series t0 t1).
Proof.
  apply Forall_forall. intros g Hg. now apply segment_state_observed with (g := g).
Qed.

End SegmentStates.

(** ** The phase picked in a window *)

Section Phase.

Local Open Scope Z_scope.

Lemma py_max_in {B : Type} (key : B -> Z) (x : B) (l : list B) :
  In (py_max key x l) (x :: l).
Proof.
  destruct (py_max_split key l x) as (l1 & l2 & Heq & _).
  rewrite Heq. apply in_or_app. right. now left.
Qed.

Lemma pick_longest_segment_in (segs : list segment) (target a b : Z) :
  pick_longest_segment segs target = Some (a, b) ->
  In (a, b, target) segs /\ a < b.
Proof.
  unfold pick_longest_segment.
  destruct (candidates segs target) as [| c l] eqn:E; [discriminate |].
  intros [= H].
  assert (In (a, b) (candidates segs target)) as Hin
    by (rewrite E, <- H; apply py_max_in).
  apply in_candidates in Hin.
  destruct Hin as ([[a' b'] st] & Hg & Hst & Hlt & Heq).
  unfold seg_state, seg_start, seg_end in *. simpl in *.
  injection Heq as -> ->. subst st. now split.
Qed.

Lemma slice_by_segment_in (df : curve) (a b pad : Z) (r : sample) :
  In r (slice_by_segment df (Some (a, b)) pad) <->
  In r df /\ a - pad <= label r <= b + pad.
Proof.
  unfold slice_by_segment. destruct df as [| r0 df]; [simpl; tauto |].
  rewrite filter_In, andb_true_iff, !Z.leb_le. tauto.
Qed.

(** X9: the segment that [pick_longest_segment] picks among the segments of
    a window lies inside the window, has positive duration and carries a
    state that a sample of the window holds; the slice that
    [slice_by_segment] cuts for it holds rows of the frame no further than
    the pad from the window, and, for a pad that is not negative, every row
    of the frame inside the segment. *)
Theorem phase_inside_window
  (status_series : series (option Z)) (t0 t1 target a b : Z) :
  pick_longest_segment (build_state_segments status_series t0 t1) target
  = Some (a, b) ->
  (t0 <= a /\ a < b /\ b <= t1) /\
  (exists t, in_window status_series t0 t1 t target) /\
  (forall (df : curve) (pad : Z) (r : sample),
      In r (slice_by_segment df (Some (a, b)) pad) ->
      In r df /\ t0 - pad <= label r <= t1 + pad) /\
  (forall (df : curve) (pad : Z) (r : sample),
      0 <= pad -> In r df -> a <= label r <= b ->
      In r (slice_by_segment df (Some (a, b)) pad)).
Proof.
  intros H. apply pick_longest_segment_in in H. destruct H as [Hin Hlt].
  destruct (segment_state_observed _ _ _ _ Hin) as (t & Ht).
  assert (exists t v, in_window status_series t0 t1 t v) as Hw
    by (now exists t, target).
  apply build_state_segments_chain, contiguous_inside in Hw.
  destruct Hw as [Hall _]. rewrite Forall_forall in Hall.
  specialize (Hall _ Hin). unfold seg_start, seg_end in Hall. simpl in Hall.
  split; [lia |]. split; [now exists t |]. split.
  - intros df pad r Hr. apply slice_by_segment_in in Hr. split; [tauto | lia].
  - intros df pad r Hpad Hr Hab. apply slice_by_segment_in. split; [exact Hr | lia].
Qed.

Lemma phase_inside_window_witness :
  (0 <= 0 /\ 0 < 8 /\ 8 <= 10) /\
  (exists t, in_window gappy 0 10 t 1) /\
  (forall (df : curve) (pad : Z) (r : sample),
      In r (slice_by_segment df (Some (0, 8)) pad) ->
      In r df /\ 0 - pad <= label r <= 10 + pad) /\
  (forall (df : curve) (pad : Z) (r : sample),
      0 <= pad -> In r df -> 0 <= label r <= 8 ->
      In r (slice_by_segment df (Some (0, 8)) pad)).
Proof.
  apply (phase_inside_window gappy 0 10 1 0 8). reflexivity.
Defined.

Lemma slice_by_segment_telemetry :
  map label (slice_by_segment telemetry
               (pick_longest_segment (build_state_segments gappy 0 10) 2) 1)
  = [7; 8; 9] /\
  slice_by_segment telemetry
    (pick_longest_segment (build_state_segments gappy 0 10) 3) 1 = [].
Proof. split; reflexivity. Qed.

End Phase.

(** ** The boundary sample at the end of the window *)

Section LastState.

Local Open Scope Z_scope.

Lemma filter_sorted {A : Type} (key : A -> Z) (f : A -> bool) (l : list A) :
  Sorted (key_le key) l -> Sorted (key_le key) (filter f l).
Proof.
  intros H. apply Sorted_StronglySorted in H.
  2:{ intros x y z Hxy Hyz. unfold key_le in *. lia. }
  apply StronglySorted_Sorted.
  induction H as [| h t Ht IH Hall]; simpl; [constructor |].
  destruct (f h); [| exact IH].
  constructor; [exact IH |].
  apply Forall_forall. intros x Hx. apply filter_In in Hx.
  rewrite Forall_forall in Hall. now apply Hall.
Qed.

Lemma window_samples_sorted (status_series : series (option Z)) (t0 t1 : Z) :
  Sorted (key_le fst) (window_samples status_series t0 t1).
Proof.
  apply filter_sorted.
  destruct (dropna status_series); [constructor | apply sort_index_sorted].
Qed.

Lemma sorted_last_greatest {A : Type} (key : A -> Z) (l : list A) (d : A) :
  Sorted (key_le key) l -> forall r, In r l -> key r <= key (last l d).
Proof.
  intros H. apply Sorted_StronglySorted in H.
  2:{ intros x y z Hxy Hyz. unfold key_le in *. lia. }
  induction H as [| h t Ht IH Hall]; intros r Hr; [contradiction |].
  destruct t as [| h' t'].
  - destruct Hr as [-> | []]. simpl. lia.
  - change (last (h :: h' :: t') d) with (last (h' :: t') d).
    destruct Hr as [-> | Hr]; [| now apply IH].
    rewrite Forall_forall in Hall.
    specialize (Hall h' (or_introl eq_refl)).
    specialize (IH h' (or_introl eq_refl)). unfold key_le in Hall. lia.
Qed.

Lemma loc_set_rows {A : Type} (s : series A) (t : Z) (v : A) :
  In t (map fst (loc_set s t v)) /\
  forall r, In r (loc_set s t v) -> fst r = t -> snd r = v.
Proof.
  split; [apply loc_set_labels; now right |].
  unfold loc_set. destruct (existsb _ s) eqn:E.
  - intros r Hr Ht. apply in_map_iff in Hr. destruct Hr as (r' & <- & _).
    destruct (Z.eqb_spec (fst r') t) as [E' | E']; [reflexivity |].
    contradiction.
  - intros r Hr Ht. apply in_app_or in Hr. destruct Hr as [Hr | [<- | []]].
    + exfalso. assert (existsb (fun r0 => fst r0 =? t) s = true) as E'.
      { apply existsb_exists. exists r. split; [exact Hr | now apply Z.eqb_eq]. }
      congruence.
    + reflexivity.
Qed.

Lemma compress_from_last (l : list Z) :
  forall prev : Z, last (prev :: compress_from prev l) 0 = last (prev :: l) 0.
Proof.
  induction l as [| x t IH]; intros prev; [reflexivity |].
  cbn [compress_from]. destruct (Z.eqb_spec x prev) as [-> | Hne].
  - rewrite IH. reflexivity.
  - change (last (prev :: x :: compress_from x t) 0)
      with (last (x :: compress_from x t) 0).
    rewrite IH. reflexivity.
Qed.

Lemma compress_last (l : list Z) : last (compress l) 0 = last l 0.
Proof.
  destruct l as [| x t]; [reflexivity | apply compress_from_last].
Qed.

Lemma last_map_default {B C : Type} (f : B -> C) (l : list B) (d : B) :
  last (map f l) (f d) = f (last l d).
Proof.
  induction l as [| x [| y t] IH]; try reflexivity. exact IH.
Qed.

(** X10: when the first sample of the window, in the order of the index,
    comes strictly after [t0], the row written at [t1] takes the state of
    that first sample (the second [if] reads the row that the first one
    appended), so the last segment carries the state of the first sample,
    whatever the later samples hold. *)
Theorem build_state_segments_last_state
  (status_series : series (option Z)) (t0 t1 ta va : Z)
  (rest : series Z) :
  window_samples status_series t0 t1 = (ta, va) :: rest -> t0 < ta ->
  seg_state (last (build_state_segments status_series t0 t1) (0, 0, 0)) = va.
Proof.
  intros Hs Hlt. rewrite build_state_segments_samples, Hs.
  rewrite <- (last_map_default seg_state), segments_of_states.
  change (seg_state (0, 0, 0)) with 0. rewrite compress_last.
  pose proof (window_samples_sorted status_series t0 t1) as Hsorted.
  rewrite Hs in Hsorted.
  assert (forall r, In r ((ta, va) :: rest) -> t0 <= fst r <= t1) as Hrange.
  { intros r Hr. rewrite <- Hs in Hr. unfold window_samples in Hr.
    now apply between_in in Hr. }
  assert (t0 < ta <= t1) as Hta.
  { specialize (Hrange (ta, va) (or_introl eq_refl)). simpl in Hrange. lia. }
  unfold extend_to_edges. cbn [fst snd].
  assert ((t0 <? ta) = true) as -> by (apply Z.ltb_lt; lia).
  set (s0 := (ta, va) :: rest) in *.
  assert (loc_set s0 t0 va = s0 ++ [(t0, va)]) as ->.
  { unfold loc_set.
    assert (existsb (fun r => fst r =? t0) s0 = false) as ->; [| reflexivity].
    apply not_true_iff_false. intros E. apply existsb_exists in E.
    destruct E as (r & Hr & E). apply Z.eqb_eq in E.
    destruct Hr as [<- | Hr]; [simpl in E; lia |].
    pose proof (sorted_head_least fst (ta, va) rest Hsorted r Hr) as Hle.
    simpl in Hle. lia. }
  rewrite last_last. cbn [fst snd].
  assert ((t0 <? t1) = true) as -> by (apply Z.ltb_lt; lia).
  set (s1 := s0 ++ [(t0, va)]).
  destruct (loc_set_rows s1 t1 va) as [Hin Hval].
  set (s2 := loc_set s1 t1 va) in *.
  pose proof (sort_index_perm fst s2) as Hperm.
  pose proof (sort_index_sorted fst s2) as Hsorted3.
  set (s3 := sort_index fst s2) in *.
  assert (forall r, In r s3 -> fst r <= t1) as Hle.
  { intros r Hr. assert (In (fst r) (map fst s2)) as Hr2.
    { apply in_map. eapply Permutation_in; [exact Hperm | exact Hr]. }
    unfold s2 in Hr2. apply loc_set_labels in Hr2.
    destruct Hr2 as [Hr2 | ->]; [| lia].
    unfold s1 in Hr2. rewrite map_app, in_app_iff in Hr2.
    destruct Hr2 as [Hr2 | [E | []]]; [| simpl in E; lia].
    apply in_map_iff in Hr2. destruct Hr2 as (r' & E & Hr').
    rewrite <- E. now apply Hrange. }
  assert (s3 <> []) as Hne.
  { intros E. rewrite E in Hperm. apply Permutation_nil in Hperm.
    rewrite Hperm in Hin. contradiction. }
  change (last (map snd s3) 0) with (last (map snd s3) (snd (0, 0))).
  rewrite last_map_default.
  apply Hval.
  - eapply Permutation_in; [exact Hperm | now apply last_in].
  - apply in_map_iff in Hin. destruct Hin as (r1 & Hr1 & Hin1).
    assert (In r1 s3) as Hin3
      by (eapply Permutation_in; [symmetry; exact Hperm | exact Hin1]).
    pose proof (sorted_last_greatest fst s3 (0, 0) Hsorted3 r1 Hin3) as Hge.
    pose proof (Hle (last s3 (0, 0)) (last_in s3 (0, 0) Hne)) as Hle1.
    lia.
Qed.

Lemma build_state_segments_last_state_witness :
  seg_state (last (build_state_segments [(8, Some 2); (5, Some 1); (10, Some 3)] 0 10)
               (0, 0, 0)) = 1.
Proof.
  apply (build_state_segments_last_state
           [(8, Some 2); (5, Some 1); (10, Some 3)] 0 10 5 1 [(8, 2); (10, 3)]).
  - reflexivity.
  - lia.
Defined.

End LastState.

(** ** Arithmetic of rationals, through [Q] *)

Lemma Qc_eq_Qeq (a b : Qc) : a = b <-> (this a == this b)%Q.
Proof. split; [intros ->; reflexivity | apply Qc_is_canon]. Qed.

(** Goals and hypotheses over [Qc] restated over [Q], for [lra] and [nra]. *)
Ltac qc_to_q :=
  repeat match goal with
         | H : @eq Qc _ _ |- _ => apply Qc_eq_Qeq in H
         | |- @eq Qc _ _ => apply Qc_eq_Qeq
         | H : ~ @eq Qc _ _ |- _ => rewrite Qc_eq_Qeq in H
         end;
  unfold Qcle, Qclt, Qcdiv, Qcminus, Qcplus, Qcopp, Qcmult, Q2Qc in *;
  cbn [this] in *;
  repeat (rewrite !Qred_correct in * );
  unfold inject_Z in *.

(** ** When the slope raises *)

Section SlopeRaises.

Local Open Scope Qc_scope.



End SlopeRaises.

(** ** The stiffness of a curve *)

Section Stiffness.

Local Open Scope Qc_scope.





Lemma filter_all {B : Type} (f : B -> bool) (l : list B) :
  (forall r, In r l -> f r = true) -> filter f l = l.
Proof.
  induction l as [| a l IH]; intros H; simpl; [reflexivity |].
  rewrite (H a) by now left. f_equal. apply IH. intros r Hr. apply H. now right.
Qed.



End Stiffness.

Section StiffnessExamples.

Local Open Scope Qc_scope.


End StiffnessExamples.

(** ** The filtered stiffness and the flag [stiff_ok] *)

Section FilteredStiffness.

Local Open Scope Qc_scope.

Lemma filter_stiffness_cases (q : Qc) :
  (Q2Qc (-0.5) <= q /\ q < 0 /\ filter_stiffness (Fin q) = Fin 0) \/
  ((q < Q2Qc (-0.5) \/ Q2Qc 100 < q) /\ filter_stiffness (Fin q) = NaN) \/
  (0 <= q /\ q <= Q2Qc 100 /\ filter_stiffness (Fin q) = Fin q).
Proof.
  destruct (Qclt_le_dec q (Q2Qc (-0.5))) as [Hlo | Hlo].
  { right. left. split; [now left | apply filter_discard; now left]. }
  destruct (Qclt_le_dec (Q2Qc 100) q) as [Hhi | Hhi].
  { right. left. split; [now right | apply filter_discard; now right]. }
  destruct (Qclt_le_dec q 0) as [Hneg | Hpos].
  - left. repeat split; try assumption. now apply filter_clamp.
  - right. right. repeat split; try assumption. now apply filter_keep.
Qed.

Lemma filter_stiffness_not_finite (k : float) :
  isfinite k = false -> filter_stiffness k = k.
Proof. destruct k; try reflexivity. discriminate. Qed.

Lemma filter_stiffness_finite_range (k : float) (q : Qc) :
  filter_stiffness k = Fin q -> 0 <= q /\ q <= Q2Qc 100.
Proof.
  destruct k as [| | | q0]; try discriminate.
  intros H.
  destruct (filter_stiffness_cases q0) as [(_ & _ & E) | [(_ & E) | (H0 & H1 & E)]];
    rewrite E in H; try discriminate; injection H as <-.
  - split; [apply Qcle_refl | qc_order].
  - now split.
Qed.

(** X16: a stiffness that [filter_stiffness] leaves finite lies in
    [0, 100]; filtering twice is filtering once; NaN and the infinities
    pass through unchanged (an infinite raw stiffness is not discarded). *)
Theorem filter_stiffness_range (k : float) :
  (forall q : Qc, filter_stiffness k = Fin q -> 0 <= q /\ q <= Q2Qc 100) /\
  filter_stiffness (filter_stiffness k) = filter_stiffness k /\
  (isfinite k = false -> filter_stiffness k = k).
Proof.
  split; [| split; [| apply filter_stiffness_not_finite]].
  - intros q. apply filter_stiffness_finite_range.
  - destruct k as [| | | q0]; try reflexivity.
    destruct (filter_stiffness_cases q0) as [(_ & _ & E) | [(_ & E) | (H0 & H1 & E)]];
      rewrite E; try reflexivity; exact E.
Qed.

Lemma filter_stiffness_range_witness :
  filter_stiffness PInf = PInf /\ filter_stiffness NaN = NaN.
Proof.
  split.
  - apply (proj2 (proj2 (filter_stiffness_range PInf))). reflexivity.
  - apply (proj2 (proj2 (filter_stiffness_range NaN))). reflexivity.
Defined.

Lemma stiff_ok_range (name : String.string) (k : float) :
  phases.stiff_ok name k = true <->
  In name phases.STIFF_OK_STATES /\
  exists q : Qc, k = Fin q /\ 0 <= q /\ q <= Q2Qc 100.
Proof.
  unfold phases.stiff_ok. rewrite !andb_true_iff, existsb_exists.
  split.
  - intros [[(s & Hs & E) Hfin] [H0 H1]]. apply String.eqb_eq in E. subst s.
    split; [exact Hs |]. destruct k as [| | | q]; try discriminate.
    exists q. unfold zero, STIFFNESS_MAX_ABS, of_Z in *.
    apply fle_Fin in H0. apply fle_Fin in H1. now repeat split.
  - intros (Hs & q & -> & H0 & H1). repeat split.
    + exists name. split; [exact Hs | apply String.eqb_refl].
    + now apply fle_Fin.
    + unfold STIFFNESS_MAX_ABS, of_Z. now apply fle_Fin.
Qed.

(** X17: a row is marked [stiff_ok] exactly when its state is one of the
    three recognized states and its raw stiffness is finite and within
    [-0.5, 100]; for the states of [state_map], which are all recognized,
    [stiff_ok] only says that the filtered stiffness is defined. *)
Theorem stiff_ok_filter_stiffness :
  (forall (name : String.string) (k_raw : float),
      phases.stiff_ok name (filter_stiffness k_raw) = true <->
      In name phases.STIFF_OK_STATES /\
      exists q : Qc, k_raw = Fin q /\ Q2Qc (-0.5) <= q /\ q <= Q2Qc 100) /\
  (forall (name : String.string) (k_raw : float),
      In name phases.state_names ->
      phases.stiff_ok name (filter_stiffness k_raw)
      = isfinite (filter_stiffness k_raw)).
Proof.
  assert (forall name k_raw,
             phases.stiff_ok name (filter_stiffness k_raw) = true <->
             In name phases.STIFF_OK_STATES /\
             exists q : Qc, k_raw = Fin q /\ Q2Qc (-0.5) <= q /\ q <= Q2Qc 100)
    as Hiff.
  { intros name k_raw. rewrite stiff_ok_range. split.
    - intros (Hs & q & E & H0 & H1). split; [exact Hs |].
      destruct k_raw as [| | | q0]; try discriminate.
      exists q0. split; [reflexivity |].
      destruct (filter_stiffness_cases q0)
        as [(Ha & Hb & E') | [(_ & E') | (Ha & Hb & E')]];
        rewrite E' in E; try discriminate.
      + split; [exact Ha | qc_order].
      + split; [qc_order | exact Hb].
    - intros (Hs & q & -> & H0 & H1). split; [exact Hs |].
      destruct (filter_stiffness_cases q)
        as [(Ha & Hb & E') | [([Ha | Ha] & E') | (Ha & Hb & E')]]; rewrite E'.
      + exists 0. split; [reflexivity |]. split; [apply Qcle_refl | qc_order].
      + exfalso. now apply Qclt_not_le in Ha.
      + exfalso. now apply Qclt_not_le in Ha.
      + exists q. now repeat split. }
  split; [exact Hiff |].
  intros name k_raw Hname.
  assert (In name phases.STIFF_OK_STATES) as Hs.
  { simpl in Hname. simpl. intuition. }
  destruct (isfinite (filter_stiffness k_raw)) eqn:Efin.
  - apply stiff_ok_range. split; [exact Hs |].
    destruct (filter_stiffness k_raw) as [| | | q] eqn:E; try discriminate.
    exists q. split; [reflexivity |].
    now apply (filter_stiffness_finite_range k_raw).
  - apply not_true_iff_false. intros H. apply stiff_ok_range in H.
    destruct H as (_ & q & E & _). rewrite E in Efin. discriminate.
Qed.

Lemma stiff_ok_filter_stiffness_witness :
  phases.stiff_ok phases.a_testing_state (filter_stiffness (of_Q (-0.2)))
  = isfinite (filter_stiffness (of_Q (-0.2))) /\
  phases.stiff_ok phases.an_unknown_state (filter_stiffness (of_Q 5)) = false.
Proof.
  split; [| reflexivity].
  apply (proj2 stiff_ok_filter_stiffness). simpl. tauto.
Defined.

End FilteredStiffness.

(** ** The breakaway sample of a phase *)

Section BreakawaySample.

Lemma ba_value_defined (df_state : curve) (col : sample -> float) :
  exists v : float,
    ba_value df_state col = Some v /\
    (isnan v = false ->
     exists (i : nat) (r : sample),
       find_breakaway_index (map displacement df_state) = Some i /\
       (1 <= i)%nat /\ nth_error df_state i = Some r /\ col r = v).
Proof.
  unfold ba_value.
  destruct (find_breakaway_index (map displacement df_state)) as [i |] eqn:E.
  - pose proof (find_breakaway_index_range _ _ E) as [H1 H3].
    rewrite length_map in H3.
    destruct (nth_error df_state i) as [r |] eqn:Er.
    + exists (col r). rewrite nth_error_map, Er. split; [reflexivity |].
      intros _. now exists i, r.
    + apply nth_error_None in Er. lia.
  - exists NaN. split; [reflexivity | discriminate].
Qed.

(** X18: the look-up of the breakaway force and displacement never raises
    (the index found is a row of the phase); it gives NaN without a
    breakaway; so [in_band] can hold for a row only when a breakaway was
    detected, at a position from 1 on, and for the force of that sample. *)
Theorem ba_force_in_band (df_state : curve) :
  exists f d : float,
    ba_force df_state = Some f /\ ba_disp df_state = Some d /\
    (find_breakaway_index (map displacement df_state) = None ->
     f = NaN /\ d = NaN) /\
    (in_band f = true ->
     exists (i : nat) (r : sample),
       find_breakaway_index (map displacement df_state) = Some i /\
       (1 <= i)%nat /\ nth_error df_state i = Some r /\
       force r = f /\ displacement r = d).
Proof.
  destruct (ba_value_defined df_state force) as (f & Hf & Hfr).
  destruct (ba_value_defined df_state displacement) as (d & Hd & Hdr).
  exists f, d. split; [exact Hf |]. split; [exact Hd |]. split.
  - intros E. unfold ba_value in Hf, Hd. rewrite E in Hf, Hd.
    injection Hf as <-. injection Hd as <-. now split.
  - intros Hband.
    assert (isnan f = false) as Hnan by (destruct f; try reflexivity; discriminate).
    destruct (Hfr Hnan) as (i & r & Ei & Hi & Er & Ef).
    exists i, r. repeat split; try assumption.
    unfold ba_value in Hd. rewrite Ei, nth_error_map, Er in Hd.
    now injection Hd.
Qed.

End BreakawaySample.

(** ** Order of the rows of a curve *)

Section CurveOrder.

(** X19: [center_to_origin] sorts the curve first: the rows of its result
    are in the order of the index, with the labels of the input, all
    shifted by the same offsets; and when the labels are distinct the
    result does not depend on the order of the rows of the input. *)
Theorem center_to_origin_order :
  (forall df df1 : curve,
      center_to_origin df = Some df1 ->
      Sorted (key_le label) df1 /\
      Permutation (map label df1) (map label df) /\
      exists x0 y0 : float, df1 = map (shift_by x0 y0) (sort_index label df)) /\
  (forall df df' : curve,
      Permutation df df' -> NoDup (map label df) ->
      center_to_origin df' = center_to_origin df).
Proof.
  split.
  - intros df df1 H. unfold center_to_origin in H.
    pose proof (sort_index_sorted label df) as Hs.
    pose proof (sort_index_perm label df) as Hp.
    destruct (sort_index label df) as [| r s] eqn:Es.
    + injection H as <-. split; [constructor |]. split.
      * now apply Permutation_map.
      * now exists NaN, NaN.
    + destruct (origin_of (r :: s)) as [[x0 y0] |]; [| discriminate].
      injection H as <-.
      change (shift_by x0 y0 r :: map (shift_by x0 y0) s)
        with (map (shift_by x0 y0) (r :: s)).
      split; [| split].
      * now apply sorted_map with (key := label).
      * rewrite map_map.
        change (fun x : sample => label (shift_by x0 y0 x)) with label.
        now apply Permutation_map.
      * now exists x0, y0.
  - intros df df' Hp Hnd. unfold center_to_origin.
    assert (sort_index label df' = sort_index label df) as ->; [| reflexivity].
    symmetry. apply (sorted_perm_unique label); try apply sort_index_sorted.
    + rewrite !sort_index_perm. exact Hp.
    + eapply Permutation_NoDup; [| exact Hnd].
      apply Permutation_map. symmetry. apply sort_index_perm.
Qed.

Lemma center_to_origin_order_witness :
  center_to_origin (rev preload) = center_to_origin preload.
Proof.
  apply (proj2 center_to_origin_order preload (rev preload)).
  - apply Permutation_rev.
  - repeat constructor; simpl; intuition discriminate.
Defined.

End CurveOrder.

(** ** The statistics of a phase *)

Section PhaseStats.

Local Open Scope Qc_scope.

(** [Series.max] and [Series.min] of a column without NaN. *)
Lemma keep_greater_fins (xs : list Qc) :
  forall b : Qc,
    exists m : Qc,
      fold_left keep_greater (fins xs) (Fin b) = Fin m /\
      In m (b :: xs) /\ forall x, In x (b :: xs) -> x <= m.
Proof.
  induction xs as [| v xs IH]; intros b.
  - exists b. repeat split; [now left |]. intros x [<- | []]. apply Qcle_refl.
  - cbn [fins map fold_left]. unfold keep_greater at 2. cbn [isnan].
    destruct (flt (Fin b) (Fin v)) eqn:E.
    + apply flt_Fin in E. destruct (IH v) as (m & Hm & Hin & Hle).
      exists m. split; [exact Hm |]. split; [now right |].
      intros x [<- | Hx]; [| now apply Hle].
      apply Qclt_le_weak. apply Qclt_le_trans with v; [exact E |].
      apply Hle. now left.
    + apply flt_Fin_false in E. destruct (IH b) as (m & Hm & Hin & Hle).
      exists m. split; [exact Hm |]. split.
      * destruct Hin as [<- | Hin]; [now left | right; now right].
      * intros x [<- | [<- | Hx]].
        -- apply Hle. now left.
        -- apply Qcle_trans with b; [exact E | apply Hle; now left].
        -- apply Hle. now right.
Qed.

Lemma keep_smaller_fins (xs : list Qc) :
  forall b : Qc,
    exists m : Qc,
      fold_left keep_smaller (fins xs) (Fin b) = Fin m /\
      In m (b :: xs) /\ forall x, In x (b :: xs) -> m <= x.
Proof.
  induction xs as [| v xs IH]; intros b.
  - exists b. repeat split; [now left |]. intros x [<- | []]. apply Qcle_refl.
  - cbn [fins map fold_left]. unfold keep_smaller at 2. cbn [isnan].
    destruct (flt (Fin v) (Fin b)) eqn:E.
    + apply flt_Fin in E. destruct (IH v) as (m & Hm & Hin & Hle).
      exists m. split; [exact Hm |]. split; [now right |].
      intros x [<- | Hx]; [| now apply Hle].
      apply Qclt_le_weak. apply Qcle_lt_trans with v; [| exact E].
      apply Hle. now left.
    + apply flt_Fin_false in E. destruct (IH b) as (m & Hm & Hin & Hle).
      exists m. split; [exact Hm |]. split.
      * destruct Hin as [<- | Hin]; [now left | right; now right].
      * intros x [<- | [<- | Hx]].
        -- apply Hle. now left.
        -- apply Qcle_trans with b; [apply Hle; now left | exact E].
        -- apply Hle. now right.
Qed.

Lemma series_max_fins (a : Qc) (xs : list Qc) :
  exists m : Qc,
    series_max (fins (a :: xs)) = Fin m /\
    In m (a :: xs) /\ forall x, In x (a :: xs) -> x <= m.
Proof. apply keep_greater_fins. Qed.

Lemma series_min_fins (a : Qc) (xs : list Qc) :
  exists m : Qc,
    series_min (fins (a :: xs)) = Fin m /\
    In m (a :: xs) /\ forall x, In x (a :: xs) -> m <= x.
Proof. apply keep_smaller_fins. Qed.

Lemma finite_column (col : sample -> float) (df : curve) :
  Forall (fun r => isfinite (col r) = true) df ->
  map col df = fins (map (fun r => val (col r)) df).
Proof.
  induction 1 as [| r df Hr _ IH]; [reflexivity |].
  simpl. rewrite IH. f_equal. now apply val_Fin.
Qed.

(** The extremes that [force_disp_stats] reports for a column. *)
Lemma column_stats (col : sample -> float) (df : curve) :
  df <> nil -> Forall (fun r => isfinite (col r) = true) df ->
  exists cmax cmin : Qc,
    series_max (map col df) = Fin cmax /\
    series_min (map col df) = Fin cmin /\
    (forall r, In r df -> cmin <= val (col r) /\ val (col r) <= cmax) /\
    (exists r, In r df /\ col r = Fin cmax) /\
    (exists r, In r df /\ col r = Fin cmin).
Proof.
  intros Hne Hfin. rewrite (finite_column col df Hfin).
  destruct df as [| r0 df]; [contradiction |]. cbn [map].
  set (a := val (col r0)). set (xs := map (fun r => val (col r)) df).
  destruct (series_max_fins a xs) as (cmax & Emax & Inmax & Hmax).
  destruct (series_min_fins a xs) as (cmin & Emin & Inmin & Hmin).
  exists cmax, cmin. rewrite Emax, Emin.
  assert (forall x, In x (a :: xs) -> exists r, In r (r0 :: df) /\ col r = Fin x)
    as Hback.
  { intros x Hx. change (a :: xs) with (map (fun r => val (col r)) (r0 :: df)) in Hx.
    apply in_map_iff in Hx. destruct Hx as (r & <- & Hr). exists r.
    split; [exact Hr |]. apply val_Fin. rewrite Forall_forall in Hfin. now apply Hfin. }
  assert (forall r, In r (r0 :: df) -> In (val (col r)) (a :: xs)) as Hcol.
  { intros r Hr.
    change (a :: xs) with (map (fun r => val (col r)) (r0 :: df)).
    exact (in_map (fun r => val (col r)) _ _ Hr). }
  split; [reflexivity |]. split; [reflexivity |].
  split; [| split; now apply Hback].
  intros r Hr. split; [apply Hmin | apply Hmax]; now apply Hcol.
Qed.

(** X20: [force_disp_stats] of an empty curve is [n = 0] with NaN for the
    extremes; for a non-empty curve of finite samples [n] is the number of
    rows, and [force_max], [force_min], [disp_max] and [disp_min] are
    values of their column that bound every sample. *)
Theorem force_disp_stats_spec :
  force_disp_stats nil = Stats.mk_stats 0 NaN NaN NaN NaN /\
  forall df : curve,
    df <> nil -> Forall finite_sample df ->
    exists fmax fmin dmax dmin : Qc,
      force_disp_stats df
      = Stats.mk_stats (length df) (Fin fmax) (Fin fmin) (Fin dmax) (Fin dmin) /\
      (forall r, In r df ->
                 fmin <= val (force r) /\ val (force r) <= fmax /\
                 dmin <= val (displacement r) /\ val (displacement r) <= dmax) /\
      (exists r, In r df /\ force r = Fin fmax) /\
      (exists r, In r df /\ force r = Fin fmin) /\
      (exists r, In r df /\ displacement r = Fin dmax) /\
      (exists r, In r df /\ displacement r = Fin dmin).
Proof.
  split; [reflexivity |]. intros df Hne Hfin.
  assert (Forall (fun r => isfinite (force r) = true) df) as Hf
    by (eapply Forall_impl; [| exact Hfin]; now intros r [H _]).
  assert (Forall (fun r => isfinite (displacement r) = true) df) as Hd
    by (eapply Forall_impl; [| exact Hfin]; now intros r [_ H]).
  destruct (column_stats force df Hne Hf)
    as (fmax & fmin & E1 & E2 & Hfb & Hfmax & Hfmin).
  destruct (column_stats displacement df Hne Hd)
    as (dmax & dmin & E4 & E5 & Hdb & Hdmax & Hdmin).
  exists fmax, fmin, dmax, dmin.
  split; [| split; [| repeat split; assumption]].
  - unfold force_disp_stats. destruct df as [| r0 df]; [contradiction |].
    now rewrite E1, E2, E4, E5.
  - intros r Hr. destruct (Hfb r Hr) as [H1 H2]. destruct (Hdb r Hr) as [H3 H4].
    now repeat split.
Qed.

Lemma force_disp_stats_spec_witness :
  exists fmax fmin dmax dmin : Qc,
    force_disp_stats preload
    = Stats.mk_stats (length preload) (Fin fmax) (Fin fmin) (Fin dmax)
                     (Fin dmin) /\
    (forall r, In r preload ->
               fmin <= val (force r) /\ val (force r) <= fmax /\
               dmin <= val (displacement r) /\ val (displacement r) <= dmax) /\
    (exists r, In r preload /\ force r = Fin fmax) /\
    (exists r, In r preload /\ force r = Fin fmin) /\
    (exists r, In r preload /\ displacement r = Fin dmax) /\
    (exists r, In r preload /\ displacement r = Fin dmin).
Proof.
  apply (proj2 force_disp_stats_spec preload).
  - discriminate.
  - repeat constructor.
Defined.

End PhaseStats.

(** ** The status index *)

Section StatusIndex.

Import scan_status.

Local Open Scope Z_scope.

(** The bisection ends with the interval empty, whatever the labels. *)
Lemma bisect_left_fuel (index : list Z) (key : Z) (fuel : nat) :
  forall (fuel' lo hi : nat),
    (hi - lo <= fuel)%nat -> (hi - lo <= fuel')%nat ->
    bisect_left fuel index key lo hi = bisect_left fuel' index key lo hi.
Proof.
  induction fuel as [| fuel IH]; intros fuel' lo hi H H'.
  - destruct fuel' as [| fuel']; [reflexivity |].
    cbn [bisect_left]. destruct (lo <? hi)%nat eqn:E; [| reflexivity].
    apply Nat.ltb_lt in E. lia.
  - destruct fuel' as [| fuel'].
    + cbn [bisect_left]. destruct (lo <? hi)%nat eqn:E; [| reflexivity].
      apply Nat.ltb_lt in E. lia.
    + cbn [bisect_left]. destruct (lo <? hi)%nat eqn:E; [| reflexivity].
      apply Nat.ltb_lt in E.
      assert ((hi - lo) / 2 < hi - lo)%nat as Hhalf
        by (apply Nat.div_lt; lia).
      destruct (nth (lo + (hi - lo) / 2) index 0 <? key); apply IH; lia.
Qed.

Lemma bisect_left_spec (index : list Z) (key : Z) :
  Sorted Z.le index ->
  forall (fuel lo hi : nat),
    (hi - lo <= fuel)%nat -> (lo <= hi <= length index)%nat ->
    (forall i, (i < lo)%nat -> nth i index 0 < key) ->
    (forall i, (hi <= i < length index)%nat -> key <= nth i index 0) ->
    let pos := bisect_left fuel index key lo hi in
    (lo <= pos <= hi)%nat /\
    (forall i, (i < pos)%nat -> nth i index 0 < key) /\
    (forall i, (pos <= i < length index)%nat -> key <= nth i index 0).
Proof.
  intros Hs. pose proof (sorted_nth_le index Hs) as Hmono.
  induction fuel as [| fuel IH]; intros lo hi Hfuel Hb Hlo Hhi.
  - cbn [bisect_left]. assert (lo = hi) as -> by lia.
    split; [lia |]. now split.
  - cbn [bisect_left]. destruct (lo <? hi)%nat eqn:E.
    + apply Nat.ltb_lt in E.
      assert ((hi - lo) / 2 < hi - lo)%nat as Hhalf
        by (apply Nat.div_lt; lia).
      set (mid := (lo + (hi - lo) / 2)%nat) in *.
      assert (lo <= mid < hi)%nat as Hmid by (unfold mid; lia).
      clearbody mid.
      destruct (nth mid index 0 <? key) eqn:Ek.
      * apply Z.ltb_lt in Ek.
        destruct (IH (S mid) hi) as (H1 & H2 & H3); try lia; try assumption.
        { intros i Hi. assert (nth i index 0 <= nth mid index 0)
            by (apply Hmono; lia). lia. }
        split; [lia |]. now split.
      * apply Z.ltb_ge in Ek.
        destruct (IH lo mid) as (H1 & H2 & H3); try lia; try assumption.
        { intros i Hi. assert (nth mid index 0 <= nth i index 0)
            by (apply Hmono; lia). lia. }
        split; [lia |]. now split.
    + apply Nat.ltb_ge in E. assert (lo = hi) as -> by lia.
      split; [lia |]. now split.
Qed.

Lemma searchsorted_spec (index : list Z) (key : Z) :
  Sorted Z.le index ->
  (searchsorted index key <= length index)%nat /\
  (forall i, (i < searchsorted index key)%nat -> nth i index 0 < key) /\
  (forall i, (searchsorted index key <= i < length index)%nat ->
             key <= nth i index 0).
Proof.
  intros Hs. unfold searchsorted.
  destruct (bisect_left_spec index key Hs (length index) 0 (length index))
    as (H1 & H2 & H3); try lia.
  split; [lia |]. now split.
Qed.

Lemma align_to_status_index_pos (sts : list Z) (t_ref : Z) :
  align_to_status_index sts t_ref
  = nth_error sts (searchsorted sts t_ref).
Proof.
  unfold align_to_status_index. destruct sts as [| x t]; [reflexivity |].
  destruct (length (x :: t) <=? searchsorted (x :: t) t_ref)%nat eqn:E;
    [| reflexivity].
  apply Nat.leb_le in E. symmetry. now apply nth_error_None.
Qed.

Lemma align_to_status_index_some (sts : list Z) (t_ref t : Z) :
  Sorted Z.le sts ->
  align_to_status_index sts t_ref = Some t ->
  In t sts /\ t_ref <= t /\
  (forall u, In u sts -> t_ref <= u -> t <= u) /\
  nth_error sts (searchsorted sts t_ref) = Some t /\
  forall i, (i < searchsorted sts t_ref)%nat -> nth i sts 0 < t_ref.
Proof.
  intros Hs H. rewrite align_to_status_index_pos in H.
  destruct (searchsorted_spec sts t_ref Hs) as (H1 & H2 & H3).
  assert (searchsorted sts t_ref < length sts)%nat as Hlt
    by (apply nth_error_Some; now rewrite H).
  pose proof (nth_error_nth _ _ 0 H) as Hn.
  split; [now apply nth_error_In in H |]. split; [| split; [| now split]].
  - rewrite <- Hn. apply H3. lia.
  - intros u Hu Hle. apply (In_nth _ _ 0) in Hu. destruct Hu as (i & Hi & <-).
    rewrite <- Hn.
    destruct (Nat.lt_ge_cases i (searchsorted sts t_ref)) as [Hlow | Hhigh].
    + specialize (H2 i Hlow). lia.
    + apply sorted_nth_le; [exact Hs | lia | lia].
Qed.

Lemma align_to_status_index_none (sts : list Z) (t_ref : Z) :
  Sorted Z.le sts ->
  align_to_status_index sts t_ref = None <->
  forall u, In u sts -> u < t_ref.
Proof.
  intros Hs. rewrite align_to_status_index_pos.
  destruct (searchsorted_spec sts t_ref Hs) as (H1 & H2 & H3).
  rewrite nth_error_None. split.
  - intros Hpos u Hu. apply (In_nth _ _ 0) in Hu. destruct Hu as (i & Hi & <-).
    apply H2. lia.
  - intros Hall. destruct (Nat.lt_ge_cases (searchsorted sts t_ref) (length sts))
      as [Hlt | Hge]; [| exact Hge].
    specialize (H3 (searchsorted sts t_ref) (conj (le_n _) Hlt)).
    specialize (Hall _ (nth_In sts 0 Hlt)). lia.
Qed.

(** X21: on a status index in increasing order, [align_to_status_index]
    returns the first label that is not before [t_ref]: a label of the
    index, at or after [t_ref], no later than any other such label, with
    only labels before [t_ref] in front of its position; and it returns
    [None] exactly when every label is before [t_ref], as in an empty
    frame. *)
Theorem align_to_status_index_spec (sts : list Z) (t_ref : Z) :
  Sorted Z.le sts ->
  (forall t : Z,
      align_to_status_index sts t_ref = Some t ->
      In t sts /\ t_ref <= t /\
      (forall u, In u sts -> t_ref <= u -> t <= u) /\
      exists pos : nat,
        nth_error sts pos = Some t /\
        forall i, (i < pos)%nat -> nth i sts 0 < t_ref) /\
  (align_to_status_index sts t_ref = None <->
   forall u, In u sts -> u < t_ref).
Proof.
  intros Hs. split.
  - intros t H.
    destruct (align_to_status_index_some sts t_ref t Hs H)
      as (H1 & H2 & H3 & H4 & H5).
    split; [exact H1 |]. split; [exact H2 |]. split; [exact H3 |].
    now exists (searchsorted sts t_ref).
  - now apply align_to_status_index_none.
Qed.

Lemma align_to_status_index_spec_witness :
  align_to_status_index bursts 100 = Some 100 /\
  align_to_status_index bursts 101 = Some 400 /\
  (align_to_status_index bursts 1001 = None <->
   forall u, In u bursts -> u < 1001).
Proof.
  split; [reflexivity |]. split; [reflexivity |].
  apply (proj2 (align_to_status_index_spec bursts 1001
                  ltac:(repeat constructor; unfold Z.le; discriminate))).
Defined.

End StatusIndex.

(** ** The hardpoints of a group *)

Section Hardpoints.

Import scan_status.

Local Open Scope Z_scope.

Lemma unique_in (l : list Z) (x : Z) : In x (unique l) <-> In x l.
Proof.
  induction l as [| y t IH]; [reflexivity |].
  cbn [unique]. split.
  - intros [-> | H]; [now left |].
    apply filter_In in H. right. now apply IH.
  - intros [-> | H]; [now left |].
    destruct (Z.eq_dec x y) as [-> | Hne]; [now left |].
    right. apply filter_In. split; [now apply IH |].
    apply negb_true_iff, Z.eqb_neq. exact Hne.
Qed.

Lemma unique_nodup (l : list Z) : NoDup (unique l).
Proof.
  induction l as [| y t IH]; [constructor |].
  cbn [unique]. constructor.
  - intros H. apply filter_In in H. destruct H as [_ H].
    now rewrite Z.eqb_refl in H.
  - now apply NoDup_filter.
Qed.

Lemma sorted_nodup_strict (l : list Z) :
  Sorted Z.le l -> NoDup l -> StronglySorted Z.lt l.
Proof.
  intros Hs Hn. apply Sorted_StronglySorted in Hs; [| exact Z.le_trans].
  induction Hs as [| x t Ht IH Hx]; [constructor |].
  inversion Hn as [| ? ? Hnot Hn']; subst.
  constructor; [now apply IH |].
  rewrite Forall_forall in *. intros y Hy.
  specialize (Hx y Hy). assert (x <> y) by (intros ->; contradiction). lia.
Qed.

Lemma strict_filter (f : Z -> bool) (l : list Z) :
  StronglySorted Z.lt l -> StronglySorted Z.lt (filter f l).
Proof.
  induction 1 as [| x t Ht IH Hx]; [constructor |].
  cbn [filter]. destruct (f x); [| exact IH].
  constructor; [exact IH |].
  rewrite Forall_forall in *. intros y Hy. apply filter_In in Hy. now apply Hx.
Qed.

Lemma strict_shift (l : list Z) :
  StronglySorted Z.lt l -> StronglySorted Z.lt (map (fun hp => hp - 1) l).
Proof.
  induction 1 as [| x t Ht IH Hx]; [constructor |].
  cbn [map]. constructor; [exact IH |].
  rewrite Forall_forall in *. intros y Hy. apply in_map_iff in Hy.
  destruct Hy as (z & <- & Hz). specialize (Hx z Hz). lia.
Qed.

Lemma uniq_hp_strict (s : series (option Z)) :
  StronglySorted Z.lt (uniq_hp s).
Proof.
  unfold uniq_hp. apply sorted_nodup_strict.
  - exact (sort_index_sorted (fun hp => hp) _).
  - eapply Permutation_NoDup; [symmetry; apply sort_index_perm |].
    apply unique_nodup.
Qed.

Lemma uniq_hp_in (s : series (option Z)) (hp : Z) :
  In hp (uniq_hp s) <-> exists t : Z, In (t, Some hp) s.
Proof.
  unfold uniq_hp. split.
  - intros H. apply (Permutation_in _ (sort_index_perm _ _)) in H.
    apply unique_in, in_map_iff in H. destruct H as ([t v] & E & H).
    simpl in E. subst v. exists t. unfold dropna in H. apply in_flat_map in H.
    destruct H as ([t' v'] & Hin & H). simpl in H.
    destruct v' as [v' |]; [| contradiction].
    destruct H as [H | []]. now injection H as -> ->.
  - intros (t & H).
    apply (Permutation_in _ (Permutation_sym (sort_index_perm _ _))).
    apply unique_in, in_map_iff. exists (t, hp). split; [reflexivity |].
    unfold dropna. apply in_flat_map. exists (t, Some hp).
    split; [exact H | now left].
Qed.

(** The hardpoints that the comprehension keeps. *)
Lemma hp_indices_cases (u : list Z) :
  let kept :=
    map (fun hp => hp - 1) (filter (fun hp => (1 <=? hp) && (hp <=? N_HP)) u)
  in
  (kept = [] /\ hp_indices u = range N_HP) \/
  (kept <> [] /\ hp_indices u = kept).
Proof.
  intros kept. unfold hp_indices. fold kept.
  destruct kept as [| x t]; [now left | right]. split; [discriminate | reflexivity].
Qed.

Lemma kept_in (u : list Z) (i : Z) :
  In i (map (fun hp => hp - 1)
            (filter (fun hp => (1 <=? hp) && (hp <=? N_HP)) u))
  <-> In (i + 1) u /\ 0 <= i < N_HP.
Proof.
  rewrite in_map_iff. split.
  - intros (hp & <- & H). apply filter_In in H. destruct H as [H Hb].
    apply andb_true_iff in Hb. destruct Hb as [H1 H2].
    apply Z.leb_le in H1. apply Z.leb_le in H2.
    replace (hp - 1 + 1) with hp by lia. split; [exact H | lia].
  - intros [H Hi]. exists (i + 1). split; [lia |]. apply filter_In.
    split; [exact H |]. apply andb_true_iff. split; apply Z.leb_le; lia.
Qed.

(** X22: [hp_indices] is never empty and holds only valid positions of
    [testState0..testState5], whatever [uniq_hp] is; computed from the
    column of hardpoint numbers of a group, it is in strictly increasing
    order, it holds exactly the positions [hp - 1] of the hardpoints from
    1 to 6 that were commanded when there is one, and all six positions
    when there is none. *)
Theorem hp_indices_spec :
  (forall u : list Z,
      hp_indices u <> [] /\ forall i, In i (hp_indices u) -> 0 <= i < N_HP) /\
  (forall s : series (option Z),
      StronglySorted Z.lt (hp_indices (uniq_hp s)) /\
      ((exists t hp, In (t, Some hp) s /\ 1 <= hp <= N_HP) ->
       forall i, In i (hp_indices (uniq_hp s)) <->
                 (exists t, In (t, Some (i + 1)) s) /\ 0 <= i < N_HP) /\
      ((forall t hp, In (t, Some hp) s -> hp < 1 \/ N_HP < hp) ->
       hp_indices (uniq_hp s) = [0; 1; 2; 3; 4; 5])).
Proof.
  split.
  - intros u. destruct (hp_indices_cases u) as [[_ ->] | [Hne ->]].
    + split; [discriminate |]. intros i Hi. unfold N_HP.
      simpl in Hi. intuition lia.
    + split; [exact Hne |]. intros i Hi. now apply kept_in in Hi.
  - intros s. destruct (hp_indices_cases (uniq_hp s)) as [[He ->] | [Hne ->]].
    + split; [| split].
      * repeat constructor; unfold Z.lt; reflexivity.
      * intros (t & hp & Hin & Hhp). exfalso.
        assert (In (hp - 1)
                   (map (fun hp => hp - 1)
                        (filter (fun hp => (1 <=? hp) && (hp <=? N_HP))
                                (uniq_hp s)))) as H.
        { apply kept_in. replace (hp - 1 + 1) with hp by lia.
          split; [apply uniq_hp_in; now exists t | lia]. }
        rewrite He in H. contradiction.
      * intros _. reflexivity.
    + split; [| split].
      * apply strict_shift, strict_filter, uniq_hp_strict.
      * intros _ i. rewrite kept_in, uniq_hp_in. reflexivity.
      * intros Hall. exfalso.
        destruct (map (fun hp => hp - 1)
                      (filter (fun hp => (1 <=? hp) && (hp <=? N_HP))
                              (uniq_hp s))) as [| i l] eqn:E;
          [now apply Hne |].
        assert (In i (i :: l)) as Hi by now left.
        rewrite <- E in Hi. apply kept_in in Hi. destruct Hi as [Hi Hr].
        apply uniq_hp_in in Hi. destruct Hi as (t & Hi).
        specialize (Hall t (i + 1) Hi). lia.
Qed.

Lemma hp_indices_spec_witness :
  hp_indices (uniq_hp commands) = [1; 3] /\
  hp_indices (uniq_hp [(0, None); (5, Some 9)]) = [0; 1; 2; 3; 4; 5].
Proof.
  split; [reflexivity |].
  apply (proj2 (proj2 (proj2 hp_indices_spec [(0, None); (5, Some 9)]))).
  intros t hp [H | [H | []]]; [discriminate |].
  injection H as _ <-. right. unfold N_HP. lia.
Defined.

End Hardpoints.

(** ** The rows of the groups *)

Section ScanGroups.

Import scan_status.

Local Open Scope Z_scope.

Lemma key_eqb_eq (a b : key) : key_eqb a b = true <-> a = b.
Proof.
  destruct a as [[a0 a1] ah], b as [[b0 b1] bh]. unfold key_eqb.
  destruct (list_eq_dec Z.eq_dec ah bh) as [-> | Hne].
  - rewrite andb_true_r, andb_true_iff, !Z.eqb_eq. split.
    + now intros [-> ->].
    + intros H. injection H as -> ->. now split.
  - rewrite andb_false_r. split; [discriminate |].
    intros H. injection H as _ _ ->. contradiction.
Qed.

Lemma seen_in (k : key) (seen : list key) :
  existsb (key_eqb k) seen = true <-> In k seen.
Proof.
  rewrite existsb_exists. split.
  - intros (k' & H & E). apply key_eqb_eq in E. now subst.
  - intros H. exists k. split; [exact H | now apply key_eqb_eq].
Qed.

Lemma row_key_row_of (g : Group.group) (k : key) : row_key (row_of g k) = k.
Proof. now destruct k as [[t0 t1] hp]. Qed.

Lemma total_seconds_positive (ns : Z) :
  0 < ns -> exists q : Qc, total_seconds ns = Fin q /\ (0 < q)%Qc.
Proof.
  intros H. unfold total_seconds, of_Q. eexists. split; [reflexivity |].
  unfold Qclt. cbn [this Q2Qc]. rewrite !Qred_correct.
  apply Qlt_shift_div_l; [reflexivity |]. rewrite Qmult_0_l.
  unfold Qlt, inject_Z. simpl. lia.
Qed.

Lemma window_some (g : Group.group) (t0 t1 : Z) (hp : list Z) :
  window g = Some (t0, t1, hp) ->
  align_to_status_index (Group.sts g) (Summary.reference_time (Group.r g))
  = Some t0 /\
  Group.end_time g = Some t1 /\ t0 < t1 /\
  hp = hp_indices (Summary.uniq_hp (Group.r g)).
Proof.
  unfold window.
  destruct (align_to_status_index _ _) as [a |]; [| discriminate].
  destruct (Group.end_time g) as [b |]; [| discriminate].
  destruct (b <=? a) eqn:E; [discriminate |].
  apply Z.leb_gt in E. intros H. injection H as -> -> <-. now repeat split.
Qed.

Lemma record_group_scanned (visited : list Group.group)
      (st : list key * list Row.row) (g : Group.group) :
  scanned visited st -> scanned (visited ++ [g]) (record_group st g).
Proof.
  destruct st as [seen rows]. intros (Hseen & Hnd & Hall & Hrows).
  cbn [fst snd] in *.
  assert (forall x, In x rows ->
            exists gs1 g0 gs2,
              visited ++ [g] = gs1 ++ g0 :: gs2 /\
              window g0 = Some (row_key x) /\ x = row_of g0 (row_key x) /\
              forall g', In g' gs1 -> window g' <> Some (row_key x)) as Hold.
  { intros x Hx. destruct (Hrows x Hx) as (gs1 & g0 & gs2 & E & Hw & Hr & Hf).
    exists gs1, g0, (gs2 ++ [g]). rewrite E, <- app_assoc. now repeat split. }
  unfold record_group. destruct (window g) as [k |] eqn:Ew.
  - destruct (existsb (key_eqb k) seen) eqn:Es.
    + apply seen_in in Es. repeat split; cbn [fst snd]; try assumption;
        try (now apply Hseen).
      * intros H. apply Hall in H. destruct H as (g0 & Hg0 & Hw).
        exists g0. split; [apply in_or_app; now left | exact Hw].
      * intros (g0 & Hg0 & Hw). apply in_app_or in Hg0.
        destruct Hg0 as [Hg0 | [<- | []]].
        -- apply Hall. now exists g0.
        -- rewrite Ew in Hw. now injection Hw as <-.
    + assert (~ In k seen) as Hnew.
      { intros H. apply seen_in in H. rewrite H in Es. discriminate. }
      repeat split; cbn [fst snd].
      * rewrite map_app, in_app_iff. cbn [map]. rewrite row_key_row_of.
        intros [<- | H]; [right; now left | left; now apply Hseen].
      * rewrite map_app, in_app_iff. cbn [map]. rewrite row_key_row_of.
        intros [H | [<- | []]]; [right; now apply Hseen | now left].
      * rewrite map_app. cbn [map]. rewrite row_key_row_of.
        apply NoDup_app; [exact Hnd | repeat constructor; intros [] |].
        intros k' Hk' [<- | []]. apply Hnew. now apply Hseen.
      * intros [<- | H].
        -- exists g. split; [apply in_or_app; right; now left | exact Ew].
        -- apply Hall in H. destruct H as (g0 & Hg0 & Hw).
           exists g0. split; [apply in_or_app; now left | exact Hw].
      * intros (g0 & Hg0 & Hw). apply in_app_or in Hg0.
        destruct Hg0 as [Hg0 | [<- | []]].
        -- right. apply Hall. now exists g0.
        -- left. rewrite Ew in Hw. now injection Hw.
      * intros x Hx. apply in_app_or in Hx. destruct Hx as [Hx | [<- | []]];
          [now apply Hold |].
        exists visited, g, []. rewrite row_key_row_of.
        split; [reflexivity |]. split; [exact Ew |]. split; [reflexivity |].
        intros g' Hg' Hw. apply Hnew, Hall. now exists g'.
  - repeat split; cbn [fst snd]; try assumption; try (now apply Hseen).
    + intros H. apply Hall in H. destruct H as (g0 & Hg0 & Hw).
      exists g0. split; [apply in_or_app; now left | exact Hw].
    + intros (g0 & Hg0 & Hw). apply in_app_or in Hg0.
      destruct Hg0 as [Hg0 | [<- | []]].
      * apply Hall. now exists g0.
      * rewrite Ew in Hw. discriminate.
Qed.

Lemma fold_record_group_scanned (groups : list Group.group) :
  forall (visited : list Group.group) (st : list key * list Row.row),
    scanned visited st ->
    scanned (visited ++ groups) (fold_left record_group groups st).
Proof.
  induction groups as [| g groups IH]; intros visited st H.
  - now rewrite app_nil_r.
  - cbn [fold_left].
    replace (visited ++ g :: groups) with ((visited ++ [g]) ++ groups)
      by (now rewrite <- app_assoc).
    apply IH. now apply record_group_scanned.
Qed.

Lemma scan_groups_scanned (groups : list Group.group) :
  scanned groups (scan_groups groups).
Proof.
  apply (fold_record_group_scanned groups [] ([], [])).
  repeat split; cbn [fst snd map]; try contradiction; try constructor.
  intros (g & [] & _).
Qed.

(** A group whose window has been seen leaves the state as it is. *)
Lemma fold_record_group_seen (groups : list Group.group) :
  forall st : list key * list Row.row,
    (forall g k, In g groups -> window g = Some k -> In k (fst st)) ->
    fold_left record_group groups st = st.
Proof.
  induction groups as [| g groups IH]; intros st H; [reflexivity |].
  cbn [fold_left].
  assert (record_group st g = st) as ->.
  { destruct st as [seen rows]. unfold record_group.
    destruct (window g) as [k |] eqn:Ew; [| reflexivity].
    assert (In k seen) as Hk by (apply (H g k); [now left | exact Ew]).
    apply seen_in in Hk. now rewrite Hk. }
  apply IH. intros g' k Hg'. apply H. now right.
Qed.

(** X23: the rows that the loop over the groups appends have distinct keys
    [(t0, t1, hp_indices)]; a key has a row exactly when some group yields
    it; every row starts at a label of the status index of its group and
    ends after it starts, with a positive [duration_s] and a non-empty
    [hp_indices]; and the row kept for a key is the one of the first group
    that yields it. *)
Theorem group_rows_spec (groups : list Group.group) :
  NoDup (map row_key (group_rows groups)) /\
  (forall k, In k (map row_key (group_rows groups)) <->
             exists g, In g groups /\ window g = Some k) /\
  (forall x, In x (group_rows groups) ->
     Row.t_start_utc x < Row.t_end_utc x /\
     (exists q : Qc, Row.duration_s x = Fin q /\ (0 < q)%Qc) /\
     Row.hp_indices x <> [] /\
     exists gs1 g gs2,
       groups = gs1 ++ g :: gs2 /\ window g = Some (row_key x) /\
       x = row_of g (row_key x) /\
       In (Row.t_start_utc x) (Group.sts g) /\
       forall g', In g' gs1 -> window g' <> Some (row_key x)).
Proof.
  destruct (scan_groups_scanned groups) as (Hseen & Hnd & Hall & Hrows).
  unfold group_rows. split; [exact Hnd |]. split.
  - intros k. rewrite <- Hseen. apply Hall.
  - intros x Hx. destruct (Hrows x Hx) as (gs1 & g & gs2 & E & Hw & Hr & Hf).
    destruct (row_key x) as [[t0 t1] hp] eqn:Ek.
    destruct (window_some g t0 t1 hp Hw) as (Ha & He & Hlt & Hhp).
    assert (Row.t_start_utc x = t0 /\ Row.t_end_utc x = t1 /\
            Row.hp_indices x = hp /\
            Row.duration_s x = total_seconds (t1 - t0)) as (E0 & E1 & E2 & E3).
    { rewrite Hr. now repeat split. }
    rewrite E0, E1, E2, E3. split; [exact Hlt |]. split; [| split].
    + apply total_seconds_positive. lia.
    + rewrite Hhp.
      destruct (hp_indices_cases (Summary.uniq_hp (Group.r g)))
        as [[_ ->] | [Hne ->]]; [discriminate | exact Hne].
    + exists gs1, g, gs2. repeat split; try assumption.
      rewrite align_to_status_index_pos in Ha. now apply nth_error_In in Ha.
Qed.

(** X24: groups whose windows have all been produced before add nothing:
    reading again a stretch of commands, as the overlap of two chunks
    does, leaves [group_rows] as it was; and there are never more rows
    than groups. *)
Theorem group_rows_overlap (groups again : list Group.group) :
  (forall g k, In g again -> window g = Some k ->
               exists g0, In g0 groups /\ window g0 = Some k) ->
  group_rows (groups ++ again) = group_rows groups /\
  group_rows (groups ++ groups) = group_rows groups /\
  (length (group_rows groups) <= length groups)%nat.
Proof.
  intros H.
  destruct (scan_groups_scanned groups) as (Hseen & Hnd & Hall & Hrows).
  assert (forall more : list Group.group,
             (forall g k, In g more -> window g = Some k ->
                          exists g0, In g0 groups /\ window g0 = Some k) ->
             group_rows (groups ++ more) = group_rows groups) as Hsame.
  { intros more Hmore. unfold group_rows, scan_groups.
    rewrite fold_left_app. fold (scan_groups groups).
    rewrite fold_record_group_seen; [reflexivity |].
    intros g k Hg Hw. apply Hall. now apply (Hmore g k). }
  split; [now apply Hsame |]. split.
  - apply Hsame. intros g k Hg Hw. now exists g.
  - clear H Hsame Hseen Hnd Hall Hrows. unfold group_rows, scan_groups.
    assert (forall gs st,
               (length (snd (fold_left record_group gs st))
                <= length (snd st) + length gs)%nat) as Hlen.
    { induction gs as [| g gs IH]; intros st; [simpl; lia |].
      cbn [fold_left length]. specialize (IH (record_group st g)).
      assert (length (snd (record_group st g)) <= S (length (snd st)))%nat.
      { destruct st as [seen rows]. unfold record_group.
        destruct (window g) as [k |]; [| simpl; lia].
        destruct (existsb (key_eqb k) seen); cbn [snd]; [lia |].
        rewrite length_app. simpl. lia. }
      lia. }
    apply (Hlen groups ([], [])).
Qed.

Lemma group_rows_overlap_witness :
  group_rows (two_groups ++ [hd a_group two_groups])
  = group_rows two_groups /\
  group_rows (two_groups ++ two_groups) = group_rows two_groups /\
  (length (group_rows two_groups) <= length two_groups)%nat.
Proof.
  apply (group_rows_overlap two_groups [hd a_group two_groups]).
  intros g k [<- | []] Hw. exists (hd a_group two_groups).
  split; [now left | exact Hw].
Defined.

End ScanGroups.

(** ** The summary of the commands *)

Section CommandGroups.

Import scan_status.

Local Open Scope Z_scope.

Lemma fold_min_spec (t : list Z) :
  forall x : Z,
    In (fold_left Z.min t x) (x :: t) /\
    forall y, In y (x :: t) -> fold_left Z.min t x <= y.
Proof.
  induction t as [| z t IH]; intros x.
  - split; [now left |]. intros y [<- | []]. cbn [fold_left]. lia.
  - cbn [fold_left]. destruct (IH (Z.min x z)) as [Hin Hle]. split.
    + destruct Hin as [E | Hin]; [| right; now right].
      rewrite <- E. destruct (Z.min_spec x z) as [[_ ->] | [_ ->]];
        [now left | right; now left].
    + intros y [<- | [<- | Hy]].
      * specialize (Hle (Z.min x z) (or_introl eq_refl)). lia.
      * specialize (Hle (Z.min x z) (or_introl eq_refl)). lia.
      * apply Hle. now right.
Qed.

Lemma index_min_spec (m : series (option Z)) :
  m <> [] ->
  In (index_min m) (map fst m) /\
  forall t, In t (map fst m) -> index_min m <= t.
Proof.
  intros Hne. unfold index_min. destruct m as [| r m]; [contradiction |].
  cbn [map]. apply fold_min_spec.
Qed.

Lemma members_in (cmd : series (option Z)) (gids : list Z) (g : Z)
      (row : Z * option Z) :
  length gids = length cmd ->
  In row (members cmd gids g) <->
  exists i : nat, nth i gids 0 = g /\ nth_error cmd i = Some row.
Proof.
  intros Hlen. unfold members. rewrite in_map_iff. split.
  - intros ([g' row'] & E & H). cbn [snd] in E. subst row'.
    apply filter_In in H. destruct H as [H Eg]. cbn [fst] in Eg.
    apply Z.eqb_eq in Eg. subst g'.
    apply (In_nth _ _ (0, row)) in H. destruct H as (i & Hi & E).
    rewrite combine_nth in E by exact Hlen. injection E as E1 E2.
    exists i. split; [exact E1 |].
    rewrite length_combine, Hlen, Nat.min_id in Hi.
    rewrite (nth_error_nth' cmd row Hi). now rewrite E2.
  - intros (i & Eg & Hrow). exists (g, row). split; [reflexivity |].
    apply filter_In. split; [| apply Z.eqb_eq; reflexivity].
    assert (i < length cmd)%nat as Hi
      by (apply nth_error_Some; now rewrite Hrow).
    rewrite <- Eg, <- (nth_error_nth _ _ row Hrow).
    rewrite <- combine_nth by exact Hlen.
    apply nth_In. now rewrite length_combine, Hlen, Nat.min_id.
Qed.

(** A rise of [group_id] between two rows is a step of more than [gap]
    somewhere between them. *)
Lemma group_by_gaps_rise (index : list Z) (gap : Z) (i : nat) :
  forall d : nat,
    (i + d < length index)%nat ->
    nth i (group_by_gaps index gap) 0 < nth (i + d) (group_by_gaps index gap) 0 ->
    exists k : nat,
      (i <= k < i + d)%nat /\ gap < nth (S k) index 0 - nth k index 0.
Proof.
  induction d as [| d IH]; intros Hd Hlt.
  - rewrite Nat.add_0_r in Hlt. lia.
  - replace (i + S d)%nat with (S (i + d)) in Hlt by lia.
    rewrite group_by_gaps_step in Hlt by lia.
    destruct (gap <? nth (S (i + d)) index 0 - nth (i + d) index 0) eqn:E.
    + apply Z.ltb_lt in E. exists (i + d)%nat. split; [lia | exact E].
    + cbn [bump] in Hlt. destruct IH as (k & Hk & Hgap); [lia | lia |].
      exists k. split; [lia | exact Hgap].
Qed.

Lemma group_by_gaps_mono (index : list Z) (gap : Z) (i j : nat) :
  (i <= j < length index)%nat ->
  nth i (group_by_gaps index gap) 0 <= nth j (group_by_gaps index gap) 0.
Proof.
  intros H. replace j with (i + (j - i))%nat by lia.
  apply group_by_gaps_between. lia.
Qed.

(** Two commands of different groups, on an index in order. *)
Lemma groups_apart (index : list Z) (gap : Z) (i j : nat) :
  Sorted Z.le index ->
  (i < length index)%nat -> (j < length index)%nat ->
  nth i (group_by_gaps index gap) 0 < nth j (group_by_gaps index gap) 0 ->
  (i < j)%nat /\ gap < nth j index 0 - nth i index 0.
Proof.
  intros Hs Hi Hj Hlt.
  assert (i < j)%nat as Hij.
  { destruct (Nat.lt_ge_cases i j) as [H | H]; [exact H |].
    pose proof (group_by_gaps_mono index gap j i (conj H Hi)). lia. }
  split; [exact Hij |].
  destruct (group_by_gaps_rise index gap i (j - i)) as (k & Hk & Hgap).
  - lia.
  - now replace (i + (j - i))%nat with j by lia.
  - pose proof (sorted_nth_le index Hs i k). 
    pose proof (sorted_nth_le index Hs (S k) j). lia.
Qed.

Lemma gsum_in (cmd : series (option Z)) (group_gap : Z) (row : Summary.summary) :
  In row (gsum cmd group_gap) <->
  exists g : Z,
    In g (group_by_gaps (map fst cmd) group_gap) /\
    row = Summary.mk_summary
            g
            (index_min (members cmd (group_by_gaps (map fst cmd) group_gap) g))
            (length (members cmd (group_by_gaps (map fst cmd) group_gap) g))
            (uniq_hp (members cmd (group_by_gaps (map fst cmd) group_gap) g)).
Proof.
  unfold gsum. rewrite in_map_iff. split.
  - intros (g & <- & H). exists g. split; [| reflexivity].
    apply (Permutation_in _ (sort_index_perm _ _)) in H. now apply unique_in.
  - intros (g & H & ->). exists g. split; [reflexivity |].
    apply (Permutation_in _ (Permutation_sym (sort_index_perm _ _))).
    now apply unique_in.
Qed.

Lemma gids_length (cmd : series (option Z)) (group_gap : Z) :
  length (group_by_gaps (map fst cmd) group_gap) = length cmd.
Proof. now rewrite group_by_gaps_length, length_map. Qed.

Lemma label_at (cmd : series (option Z)) (i : nat) (row : Z * option Z) :
  nth_error cmd i = Some row ->
  (i < length (map fst cmd))%nat /\ nth i (map fst cmd) 0 = fst row.
Proof.
  intros H. split.
  - rewrite length_map. apply nth_error_Some. now rewrite H.
  - apply nth_error_nth. now rewrite nth_error_map, H.
Qed.

(** X25: the summary [gsum] of a frame of commands has one row for each
    group and every command belongs to the group of one row; the rows are
    in increasing order of [group_id]; a row counts at least one command,
    its [reference_time] is the label of one of its commands and is not
    after any of them; and when the commands are in order of time, the
    reference times of two groups differ by more than [group_gap]. *)
Theorem gsum_spec (cmd : series (option Z)) (group_gap : Z) :
  StronglySorted Z.lt (map Summary.group_id (gsum cmd group_gap)) /\
  (forall i : nat,
      (i < length cmd)%nat ->
      exists row,
        In row (gsum cmd group_gap) /\
        Summary.group_id row
        = nth i (group_by_gaps (map fst cmd) group_gap) 0) /\
  (forall row,
      In row (gsum cmd group_gap) ->
      (0 < Summary.n_cmds row)%nat /\
      (exists i v,
          nth i (group_by_gaps (map fst cmd) group_gap) 0
          = Summary.group_id row /\
          nth_error cmd i = Some (Summary.reference_time row, v)) /\
      (forall i t v,
          nth i (group_by_gaps (map fst cmd) group_gap) 0
          = Summary.group_id row ->
          nth_error cmd i = Some (t, v) ->
          Summary.reference_time row <= t)) /\
  (Sorted (key_le fst) cmd ->
   forall a b,
     In a (gsum cmd group_gap) -> In b (gsum cmd group_gap) ->
     Summary.group_id a < Summary.group_id b ->
     group_gap < Summary.reference_time b - Summary.reference_time a).
Proof.
  set (gids := group_by_gaps (map fst cmd) group_gap).
  pose proof (gids_length cmd group_gap) as Hlen. fold gids in Hlen.
  assert (forall row,
             In row (gsum cmd group_gap) ->
             (0 < Summary.n_cmds row)%nat /\
             (exists i v,
                 nth i gids 0 = Summary.group_id row /\
                 nth_error cmd i = Some (Summary.reference_time row, v)) /\
             (forall i t v,
                 nth i gids 0 = Summary.group_id row ->
                 nth_error cmd i = Some (t, v) ->
                 Summary.reference_time row <= t)) as Hrow.
  { intros row H. apply gsum_in in H. fold gids in H.
    destruct H as (g & Hg & ->). cbn [Summary.group_id Summary.n_cmds
                                       Summary.reference_time].
    apply (In_nth _ _ 0) in Hg. destruct Hg as (i0 & Hi0 & Eg).
    rewrite Hlen in Hi0.
    destruct (nth_error cmd i0) as [row0 |] eqn:E0;
      [| apply nth_error_None in E0; lia].
    assert (In row0 (members cmd gids g)) as Hm
      by (apply members_in; [exact Hlen | now exists i0]).
    assert (members cmd gids g <> []) as Hne
      by (intros E; rewrite E in Hm; contradiction).
    destruct (index_min_spec _ Hne) as [Hin Hmin].
    split; [| split].
    - destruct (members cmd gids g); [contradiction | simpl; lia].
    - apply in_map_iff in Hin. destruct Hin as ([t v] & Et & Hin).
      cbn [fst] in Et. apply members_in in Hin; [| exact Hlen].
      destruct Hin as (i & Ei & Hi). exists i, v. rewrite <- Et. now split.
    - intros i t v Ei Hi. apply Hmin.
      apply in_map_iff. exists (t, v). split; [reflexivity |].
      apply members_in; [exact Hlen | now exists i]. }
  split; [| split; [| split; [exact Hrow |]]].
  - unfold gsum. rewrite map_map. cbn [Summary.group_id]. rewrite map_id.
    apply sorted_nodup_strict.
    + exact (sort_index_sorted (fun g => g) _).
    + eapply Permutation_NoDup; [symmetry; apply sort_index_perm |].
      apply unique_nodup.
  - intros i Hi. eexists. split.
    + apply gsum_in. exists (nth i gids 0). split; [| reflexivity].
      apply nth_In. fold gids. now rewrite Hlen.
    + reflexivity.
  - intros Hs a b Ha Hb Hlt.
    destruct (Hrow a Ha) as (_ & (i & va & Ei & Hi) & _).
    destruct (Hrow b Hb) as (_ & (j & vb & Ej & Hj) & _).
    destruct (label_at cmd i _ Hi) as [Hi1 Hi2].
    destruct (label_at cmd j _ Hj) as [Hj1 Hj2].
    cbn [fst] in Hi2, Hj2. rewrite <- Hi2, <- Hj2.
    apply groups_apart; try assumption.
    + now apply sorted_labels.
    + fold gids. now rewrite Ei, Ej.
Qed.

Lemma gsum_spec_witness :
  map Summary.reference_time (gsum commands three_minutes) = [0; 400; 1000] /\
  forall a b,
    In a (gsum commands three_minutes) -> In b (gsum commands three_minutes) ->
    Summary.group_id a < Summary.group_id b ->
    three_minutes < Summary.reference_time b - Summary.reference_time a.
Proof.
  split; [reflexivity |].
  apply (proj2 (proj2 (proj2 (gsum_spec commands three_minutes)))).
  repeat constructor; unfold key_le; simpl; lia.
Defined.

End CommandGroups.
